(** * passwd: a Tauri password manager

    Shallow embedding of the Vue front end (the password-manager component,
    [App.vue] and [components/searchbar.vue]) and, where the Rust back end is
    not part of the sources at hand, of the back end as the specification
    describes it.

    Strings are Rocq [string]s, read as the UTF-8 encoding of the JavaScript
    string; JavaScript numbers that hold counts and lengths are [Z]. *)

From Stdlib Require Import ZArith NArith Lia Ascii String.
From Stdlib.Strings Require Import Byte.
From stdpp Require Import base option list strings pretty gmap.

Set Warnings "-register-all".

Local Open Scope string_scope.
Local Open Scope list_scope.

(** ** JavaScript string helpers *)

Module Js.

(** [!s] on a string: only the empty string is falsy. *)
Definition falsy (s : string) : bool :=
  match s with
  | EmptyString => true
  | String _ _ => false
  end.

Definition of_bytes (l : list nat) : list ascii := map ascii_of_nat l.

(** ECMAScript WhiteSpace and LineTerminator code points, UTF-8 encoded:
    U+0009..U+000D, U+0020, U+00A0, U+1680, U+2000..U+200A, U+2028, U+2029,
    U+202F, U+205F, U+3000, U+FEFF. *)
Definition white_space : list (list ascii) :=
  map of_bytes
    [ [9]; [10]; [11]; [12]; [13]; [32];
      [194; 160];
      [225; 154; 128];
      [226; 128; 128]; [226; 128; 129]; [226; 128; 130]; [226; 128; 131];
      [226; 128; 132]; [226; 128; 133]; [226; 128; 134]; [226; 128; 135];
      [226; 128; 136]; [226; 128; 137]; [226; 128; 138];
      [226; 128; 168]; [226; 128; 169]; [226; 128; 175];
      [226; 129; 159];
      [227; 128; 128];
      [239; 187; 191] ].

Fixpoint strip_prefix (p l : list ascii) : option (list ascii) :=
  match p, l with
  | [], _ => Some l
  | _ :: _, [] => None
  | a :: p', b :: l' => if Ascii.eqb a b then strip_prefix p' l' else None
  end.

Fixpoint strip_any (table : list (list ascii)) (l : list ascii)
  : option (list ascii) :=
  match table with
  | [] => None
  | p :: table' =>
      match strip_prefix p l with
      | Some rest => Some rest
      | None => strip_any table' l
      end
  end.

Fixpoint trim_loop (table : list (list ascii)) (fuel : nat) (l : list ascii)
  : list ascii :=
  match fuel with
  | O => l
  | S fuel' =>
      match strip_any table l with
      | Some rest => trim_loop table fuel' rest
      | None => l
      end
  end.

Definition trimStart_bytes (l : list ascii) : list ascii :=
  trim_loop white_space (length l) l.

Definition trimEnd_bytes (l : list ascii) : list ascii :=
  rev (trim_loop (map (@rev ascii) white_space) (length l) (rev l)).

(** [String.prototype.trim]. *)
Definition trim (s : string) : string :=
  string_of_list_ascii
    (trimEnd_bytes (trimStart_bytes (list_ascii_of_string s))).

(** A value a promise can reject with, as the handlers read it: either a
    string, or the back end's [ErrorInfo] object. *)
Record ErrorInfo := mkErrorInfo { code : Z; info : string }.

Inductive Thrown :=
| ThrownString (s : string)
| ThrownInfo (e : ErrorInfo).

(** [`${e}`] *)
Definition to_string (e : Thrown) : string :=
  match e with
  | ThrownString s => s
  | ThrownInfo _ => "[object Object]"
  end.

(** [`${(e as ErrorInfo).info}`]: a property read, not a check. *)
Definition info_of (e : Thrown) : string :=
  match e with
  | ThrownString _ => "undefined"
  | ThrownInfo i => info i
  end.

(** [Array.prototype.includes] on an array of strings. *)
Definition includes (l : list string) (x : string) : bool :=
  existsb (String.eqb x) l.

(** [Array.prototype.indexOf]: [None] stands for [-1]. *)
Fixpoint indexOf (l : list string) (x : string) : option nat :=
  match l with
  | [] => None
  | y :: l' =>
      if String.eqb y x then Some O
      else match indexOf l' x with
           | Some i => Some (S i)
           | None => None
           end
  end.

(** [l.splice(i, 1)] for an index inside the array. *)
Definition splice1 {A} (i : nat) (l : list A) : list A :=
  take i l ++ drop (S i) l.

End Js.

(** ** Data types of the password-manager component *)

Module EncryptedData.
Record t := mk { ciphertext : string; nonce : string; salt : string }.
End EncryptedData.
Abbreviation EncryptedData := EncryptedData.t.

Module Password.
Record t := mk {
  id : string;
  title : string;
  description : string;
  tags : list string;
  username : string;
  encrypted_password : EncryptedData;
  url : option string;
  created_at : string;
  updated_at : string
}.
End Password.
Abbreviation Password := Password.t.

Module StorageMetadata.
Record t := mk { version : string; last_sync : string; password_count : Z }.
End StorageMetadata.
Abbreviation StorageMetadata := StorageMetadata.t.

Module StorageData.
Record t := mk { metadata : StorageMetadata; passwords : list Password }.
End StorageData.
Abbreviation StorageData := StorageData.t.

Module PasswordCreateRequest.
Record t := mk {
  title : string;
  description : string;
  tags : list string;
  username : string;
  password : string;
  url : option string;
  key : string
}.
Definition set_tags (ts : list string) (r : t) : t :=
  mk (title r) (description r) ts (username r) (password r) (url r) (key r).
Definition set_password (p : string) (r : t) : t :=
  mk (title r) (description r) (tags r) (username r) p (url r) (key r).
End PasswordCreateRequest.
Abbreviation PasswordCreateRequest := PasswordCreateRequest.t.

Module PasswordGeneratorConfig.
Record t := mk {
  length : Z;
  exclude_chars : option string;
  require_uppercase : bool;
  require_lowercase : bool;
  require_numbers : bool;
  require_symbols : bool
}.
End PasswordGeneratorConfig.
Abbreviation PasswordGeneratorConfig := PasswordGeneratorConfig.t.

(** What the [generatorConfig] ref holds at run time.  The interface declares
    [length] a number and the ref starts with 16, but the range input's
    [v-model] has no [.number]: moving the slider stores the input's text. *)
Module GeneratorConfig.
Inductive length_value :=
| number (n : Z)
| text (s : string).
Record t := mk {
  length : length_value;
  exclude_chars : option string;
  require_uppercase : bool;
  require_lowercase : bool;
  require_numbers : bool;
  require_symbols : bool
}.
End GeneratorConfig.

(** State of the decrypt dialog ([decryptPassword]). *)
Module DecryptDialog.
Record t := mk {
  id : string;
  key : string;
  decrypted : string;
  encryptedData : option EncryptedData
}.
End DecryptDialog.

(** [Data] of [App.vue]. *)
Module Data.
Record t := mk { val : string; map : gmap Z string }.
End Data.

(** ** The Tauri boundary

    [invoke(name, args)] names a back-end command and passes an object of
    named arguments.  One constructor per call shape the front end uses; the
    constructor arguments are the keys of the argument object. *)

Inductive Command :=
| initialize_manager
| get_all_passwords_from_storage (storageTarget : string)
| search_passwords (query : string)
| add_password (request : PasswordCreateRequest)
| delete_password (passwordId : string)
| decrypt_password (password : EncryptedData) (user_password : string)
| generate_password (config : GeneratorConfig.t)
| greet (name : string)
| fetch_data.

(** The first argument of [invoke]. *)
Definition command_name (c : Command) : string :=
  match c with
  | initialize_manager => "initialize_manager"
  | get_all_passwords_from_storage _ => "get_all_passwords_from_storage"
  | search_passwords _ => "search_passwords"
  | add_password _ => "add_password"
  | delete_password _ => "delete_password"
  | decrypt_password _ _ => "decrypt_password"
  | generate_password _ => "generate_password"
  | greet _ => "greet"
  | fetch_data => "fetch_data"
  end.

(** The type the caller gives to the awaited result; [unit] where the result
    is dropped. *)
Definition Resp (c : Command) : Type :=
  match c with
  | initialize_manager => unit
  | get_all_passwords_from_storage _ => StorageData
  | search_passwords _ => list Password
  | add_password _ => unit
  | delete_password _ => unit
  | decrypt_password _ _ => string
  | generate_password _ => string
  | greet _ => string
  | fetch_data => Data.t
  end.

(** The host process behind [invoke]: any state [W], any answers.  A promise
    either rejects ([inl]) or resolves ([inr]). *)
Class Backend (W : Type) :=
  respond : forall c : Command, W -> (Js.Thrown + Resp c) * W.

(** ** Component state and the handler monad *)

Record Sys (W U : Type) := mkSys {
  refs : U;                              (* the component's refs *)
  world : W;                             (* the host process *)
  invoked : list Command;                (* every [invoke] so far, in order *)
  console : list (string * Js.Thrown)    (* console lines: label, value *)
}.
Arguments mkSys {W U}.
Arguments refs {W U}.
Arguments world {W U}.
Arguments invoked {W U}.
Arguments console {W U}.

Definition M (W U A : Type) : Type := Sys W U -> A * Sys W U.

Definition ret {W U A} (a : A) : M W U A := fun s => (a, s).

Definition bind {W U A B} (m : M W U A) (k : A -> M W U B) : M W U B :=
  fun s => let (a, s') := m s in k a s'.

Notation "x <- m ;; k" := (bind m (fun x => k))
  (at level 100, m at next level, right associativity).
Notation "m ;;; k" := (bind m (fun _ => k))
  (at level 100, right associativity).

Definition get {W U} : M W U U := fun s => (refs s, s).

Definition modify {W U} (f : U -> U) : M W U unit :=
  fun s => (tt, mkSys (f (refs s)) (world s) (invoked s) (console s)).

Definition invoke {W U} {host : Backend W} (c : Command)
  : M W U (Js.Thrown + Resp c) :=
  fun s =>
    let (r, w) := respond c (world s) in
    (r, mkSys (refs s) w (invoked s ++ [c]) (console s)).

Definition console_error {W U} (label : string) (e : Js.Thrown) : M W U unit :=
  fun s => (tt, mkSys (refs s) (world s) (invoked s) (console s ++ [(label, e)])).

Definition exec {W U A} (m : M W U A) (s : Sys W U) : Sys W U := snd (m s).

(** The refs of the password-manager component. *)
Record Refs := mkRefs {
  logMessages : list string;
  passwords : list Password;
  searchQuery : string;
  isLoading : bool;
  error : string;
  showAddForm : bool;
  newPassword : PasswordCreateRequest;
  showDecryptDialog : bool;
  decryptPassword : DecryptDialog.t;
  showGenerator : bool;
  generatorConfig : GeneratorConfig.t
}.

Definition set_logMessages (v : list string) (r : Refs) : Refs :=
  mkRefs v (passwords r) (searchQuery r) (isLoading r) (error r)
    (showAddForm r) (newPassword r) (showDecryptDialog r) (decryptPassword r)
    (showGenerator r) (generatorConfig r).
Definition set_passwords (v : list Password) (r : Refs) : Refs :=
  mkRefs (logMessages r) v (searchQuery r) (isLoading r) (error r)
    (showAddForm r) (newPassword r) (showDecryptDialog r) (decryptPassword r)
    (showGenerator r) (generatorConfig r).
Definition set_searchQuery (v : string) (r : Refs) : Refs :=
  mkRefs (logMessages r) (passwords r) v (isLoading r) (error r)
    (showAddForm r) (newPassword r) (showDecryptDialog r) (decryptPassword r)
    (showGenerator r) (generatorConfig r).
Definition set_isLoading (v : bool) (r : Refs) : Refs :=
  mkRefs (logMessages r) (passwords r) (searchQuery r) v (error r)
    (showAddForm r) (newPassword r) (showDecryptDialog r) (decryptPassword r)
    (showGenerator r) (generatorConfig r).
Definition set_error (v : string) (r : Refs) : Refs :=
  mkRefs (logMessages r) (passwords r) (searchQuery r) (isLoading r) v
    (showAddForm r) (newPassword r) (showDecryptDialog r) (decryptPassword r)
    (showGenerator r) (generatorConfig r).
Definition set_showAddForm (v : bool) (r : Refs) : Refs :=
  mkRefs (logMessages r) (passwords r) (searchQuery r) (isLoading r) (error r)
    v (newPassword r) (showDecryptDialog r) (decryptPassword r)
    (showGenerator r) (generatorConfig r).
Definition set_newPassword (v : PasswordCreateRequest) (r : Refs) : Refs :=
  mkRefs (logMessages r) (passwords r) (searchQuery r) (isLoading r) (error r)
    (showAddForm r) v (showDecryptDialog r) (decryptPassword r)
    (showGenerator r) (generatorConfig r).
Definition set_showDecryptDialog (v : bool) (r : Refs) : Refs :=
  mkRefs (logMessages r) (passwords r) (searchQuery r) (isLoading r) (error r)
    (showAddForm r) (newPassword r) v (decryptPassword r)
    (showGenerator r) (generatorConfig r).
Definition set_decryptPassword (v : DecryptDialog.t) (r : Refs) : Refs :=
  mkRefs (logMessages r) (passwords r) (searchQuery r) (isLoading r) (error r)
    (showAddForm r) (newPassword r) (showDecryptDialog r) v
    (showGenerator r) (generatorConfig r).
Definition set_showGenerator (v : bool) (r : Refs) : Refs :=
  mkRefs (logMessages r) (passwords r) (searchQuery r) (isLoading r) (error r)
    (showAddForm r) (newPassword r) (showDecryptDialog r) (decryptPassword r)
    v (generatorConfig r).
Definition set_generatorConfig (v : GeneratorConfig.t) (r : Refs) : Refs :=
  mkRefs (logMessages r) (passwords r) (searchQuery r) (isLoading r) (error r)
    (showAddForm r) (newPassword r) (showDecryptDialog r) (decryptPassword r)
    (showGenerator r) v.

(** The value [newPassword] starts with and [resetForm] puts back. *)
Definition emptyRequest : PasswordCreateRequest :=
  PasswordCreateRequest.mk "" "" [] "" "" (Some "") "".

Definition initialRefs : Refs :=
  mkRefs [] [] "" false "" false emptyRequest false
    (DecryptDialog.mk "" "" "" None) false
    (GeneratorConfig.mk (GeneratorConfig.number 16) None true true true true).

(** ** The handlers of the password-manager component *)

Section Handlers.
Context {W : Type} {host : Backend W}.

Definition addLog (msg : string) : M W Refs unit :=
  modify (fun r => set_logMessages (logMessages r ++ [msg]) r).

Definition loadPasswords : M W Refs unit :=
  res <- invoke (get_all_passwords_from_storage "local") ;;
  match res with
  | inr storageData =>
      modify (set_passwords (StorageData.passwords storageData))
  | inl e =>
      modify (set_error ("加载密码失败: " +:+ Js.to_string e)) ;;;
      console_error "加载密码错误:" e ;;;
      modify (set_passwords [])
  end.

Definition initializeApp : M W Refs unit :=
  addLog "开始初始化应用..." ;;;
  modify (set_isLoading true) ;;;
  modify (set_error "") ;;;
  res <- invoke initialize_manager ;;
  match res with
  | inr _ =>
      addLog "初始化管理器成功" ;;;
      loadPasswords ;;;
      addLog "初始加载密码成功"
  | inl e =>
      modify (set_error ("初始化失败: " +:+ Js.info_of e)) ;;;
      console_error "初始化错误:" e
  end ;;;
  modify (set_isLoading false).

Definition handleSearch (query : string) : M W Refs unit :=
  modify (set_searchQuery query) ;;;
  if Js.falsy (Js.trim query) then loadPasswords
  else
    addLog ("搜索密码: " +:+ query) ;;;
    res <- invoke (search_passwords query) ;;
    match res with
    | inr results =>
        modify (set_passwords results) ;;;
        addLog ("搜索到 " +:+ pretty (length results) +:+ " 条密码")
    | inl e =>
        modify (set_error ("搜索失败: " +:+ Js.to_string e)) ;;;
        console_error "搜索错误:" e
    end.

Definition resetForm : M W Refs unit :=
  addLog "重置添加密码表单" ;;;
  modify (set_newPassword emptyRequest).

Definition addPassword : M W Refs unit :=
  r <- get ;;
  let np := newPassword r in
  if Js.falsy (PasswordCreateRequest.title np)
     || Js.falsy (PasswordCreateRequest.username np)
     || Js.falsy (PasswordCreateRequest.password np)
     || Js.falsy (PasswordCreateRequest.key np)
  then
    modify (set_error "请填写所有必填字段") ;;;
    addLog "添加密码失败: 缺少必填字段"
  else
    addLog ("添加密码: " +:+ PasswordCreateRequest.title np +:+ " - "
              +:+ PasswordCreateRequest.username np) ;;;
    res <- invoke (add_password np) ;;
    match res with
    | inr _ =>
        addLog "here" ;;;
        modify (set_showAddForm false) ;;;
        resetForm ;;;
        addLog "添加密码成功" ;;;
        loadPasswords
    | inl e =>
        modify (set_error ("添加密码失败: " +:+ Js.info_of e)) ;;;
        console_error "添加密码错误:" e
    end.

(** [confirmed] is the answer of the browser's [confirm] dialog. *)
Definition deletePassword (id : string) (confirmed : bool) : M W Refs unit :=
  if negb confirmed then ret tt
  else
    res <- invoke (delete_password id) ;;
    match res with
    | inr _ => loadPasswords
    | inl e =>
        modify (set_error ("删除密码失败: " +:+ Js.to_string e)) ;;;
        console_error "删除密码错误:" e
    end.

Definition decryptPasswordFunc (id key : string) : M W Refs unit :=
  r <- get ;;
  match find (fun p => String.eqb (Password.id p) id) (passwords r) with
  | None => ret tt
  | Some password =>
      res <- invoke (decrypt_password (Password.encrypted_password password) key) ;;
      match res with
      | inr decrypted =>
          modify (set_decryptPassword
                    (DecryptDialog.mk id key decrypted
                       (Some (Password.encrypted_password password)))) ;;;
          modify (set_showDecryptDialog true)
      | inl e =>
          modify (set_error ("解密密码失败: " +:+ Js.to_string e)) ;;;
          console_error "解密密码错误:" e
      end
  end.

Definition generatePassword : M W Refs unit :=
  r <- get ;;
  res <- invoke (generate_password (generatorConfig r)) ;;
  match res with
  | inr generated =>
      modify (fun r =>
        set_newPassword
          (PasswordCreateRequest.set_password generated (newPassword r)) r) ;;;
      modify (set_showGenerator false)
  | inl e =>
      modify (set_error ("生成密码失败: " +:+ Js.to_string e)) ;;;
      console_error "生成密码错误:" e
  end.

(** [tags.push(tag)] behind the guard [tag && !tags.includes(tag)]. *)
Definition addTag_list (tag : string) (tags : list string) : list string :=
  if negb (Js.falsy tag) && negb (Js.includes tags tag)
  then tags ++ [tag]
  else tags.

(** [tags.splice(index, 1)] when [indexOf] finds the tag ([index > -1]). *)
Definition removeTag_list (tag : string) (tags : list string) : list string :=
  match Js.indexOf tags tag with
  | Some index => Js.splice1 index tags
  | None => tags
  end.

Definition on_tags (f : list string -> list string) : M W Refs unit :=
  modify (fun r =>
    set_newPassword
      (PasswordCreateRequest.set_tags
         (f (PasswordCreateRequest.tags (newPassword r))) (newPassword r)) r).

Definition addTag (tag : string) : M W Refs unit := on_tags (addTag_list tag).

Definition removeTag (tag : string) : M W Refs unit :=
  on_tags (removeTag_list tag).

End Handlers.

(** ** The search bar component ([components/searchbar.vue]) *)

Module SearchBar.

Inductive Emit :=
| update_modelValue (value : string)
| search (value : string).

Definition handleInput (target_value : string) : list Emit :=
  [update_modelValue target_value].

Definition handleSearch (modelValue : string) : list Emit :=
  [search modelValue].

Definition clearSearch : list Emit :=
  [update_modelValue ""; search ""].

End SearchBar.

(** ** The template's bindings: what the user can do *)

Inductive FormField :=
| f_title | f_description | f_username | f_password | f_key | f_url.

Definition set_field (f : FormField) (v : string) (r : PasswordCreateRequest)
  : PasswordCreateRequest :=
  let '(PasswordCreateRequest.mk t d ts u p w k) := r in
  match f with
  | f_title => PasswordCreateRequest.mk v d ts u p w k
  | f_description => PasswordCreateRequest.mk t v ts u p w k
  | f_username => PasswordCreateRequest.mk t d ts v p w k
  | f_password => PasswordCreateRequest.mk t d ts u v w k
  | f_key => PasswordCreateRequest.mk t d ts u p w v
  | f_url => PasswordCreateRequest.mk t d ts u p (Some v) k
  end.

Inductive GeneratorInput :=
| g_length (value : string)
| g_exclude_chars (s : string)
| g_require_uppercase (b : bool)
| g_require_lowercase (b : bool)
| g_require_numbers (b : bool)
| g_require_symbols (b : bool).

Definition set_generator (g : GeneratorInput) (c : GeneratorConfig.t)
  : GeneratorConfig.t :=
  let '(GeneratorConfig.mk n x up lo nu sy) := c in
  match g with
  | g_length v => GeneratorConfig.mk (GeneratorConfig.text v) x up lo nu sy
  | g_exclude_chars v => GeneratorConfig.mk n (Some v) up lo nu sy
  | g_require_uppercase v => GeneratorConfig.mk n x v lo nu sy
  | g_require_lowercase v => GeneratorConfig.mk n x up v nu sy
  | g_require_numbers v => GeneratorConfig.mk n x up lo v sy
  | g_require_symbols v => GeneratorConfig.mk n x up lo nu v
  end.

Inductive Event :=
| ev_mounted                                  (* onMounted *)
| ev_search_input (value : string)            (* typing in the search bar *)
| ev_search_enter                             (* Enter in the search bar *)
| ev_search_clear                             (* the search bar's clear button *)
| ev_show_add_form (b : bool)                 (* showAddForm = b *)
| ev_show_generator (b : bool)                (* showGenerator = b *)
| ev_view (id : string)                       (* the card's view button *)
| ev_delete (id : string) (confirmed : bool)  (* the card's delete button *)
| ev_form_input (f : FormField) (value : string)
| ev_tag_enter (value : string)               (* Enter in the tag input *)
| ev_tag_remove (tag : string)                (* a tag's remove button *)
| ev_submit                                   (* the add form's submit *)
| ev_generator_input (g : GeneratorInput)
| ev_generate                                 (* the generator's button *)
| ev_close_decrypt_dialog.

Section Component.
Context {W : Type} {host : Backend W}.

(** [v-model="searchQuery"] and [@search="handleSearch"] on [<SearchBar>]. *)
Definition on_emit (e : SearchBar.Emit) : M W Refs unit :=
  match e with
  | SearchBar.update_modelValue v => modify (set_searchQuery v)
  | SearchBar.search v => handleSearch v
  end.

Fixpoint on_emits (es : list SearchBar.Emit) : M W Refs unit :=
  match es with
  | [] => ret tt
  | e :: es' => on_emit e ;;; on_emits es'
  end.

Definition dispatch (ev : Event) : M W Refs unit :=
  match ev with
  | ev_mounted => initializeApp
  | ev_search_input v => on_emits (SearchBar.handleInput v)
  | ev_search_enter =>
      r <- get ;; on_emits (SearchBar.handleSearch (searchQuery r))
  | ev_search_clear => on_emits SearchBar.clearSearch
  | ev_show_add_form b => modify (set_showAddForm b)
  | ev_show_generator b => modify (set_showGenerator b)
  | ev_view id => decryptPasswordFunc id "your-key"
  | ev_delete id confirmed => deletePassword id confirmed
  | ev_form_input f v =>
      modify (fun r => set_newPassword (set_field f v (newPassword r)) r)
  | ev_tag_enter v => addTag v
  | ev_tag_remove tag => removeTag tag
  | ev_submit => addPassword
  | ev_generator_input g =>
      modify (fun r => set_generatorConfig (set_generator g (generatorConfig r)) r)
  | ev_generate => generatePassword
  | ev_close_decrypt_dialog => modify (set_showDecryptDialog false)
  end.

Fixpoint run (evs : list Event) : M W Refs unit :=
  match evs with
  | [] => ret tt
  | ev :: evs' => dispatch ev ;;; run evs'
  end.

(** The component as created, in front of a host in state [w]. *)
Definition boot (w : W) : Sys W Refs := mkSys initialRefs w [] [].

End Component.

(** ** The scaffold component ([App.vue]) *)

Module App.

Record Refs := mkRefs {
  greetMsg : string;
  name : string;
  searchQuery : string;
  data : Data.t
}.

Definition initialRefs : Refs :=
  mkRefs "" "" "" (Data.mk "hello" (<[1%Z:="a"]> (<[2%Z:="b"]> ∅))).

Section Handlers.
Context {W : Type} {host : Backend W}.

(** No [try]: a rejected [await] ends the handler there. *)
Definition greet : M W Refs unit :=
  r <- get ;;
  res <- invoke (greet (name r)) ;;
  match res with
  | inl _ => ret tt
  | inr msg =>
      modify (fun r => mkRefs msg (name r) (searchQuery r) (data r)) ;;;
      res' <- invoke fetch_data ;;
      match res' with
      | inl _ => ret tt
      | inr d => modify (fun r => mkRefs (greetMsg r) (name r) (searchQuery r) d)
      end
  end.

(** [console.log] only. *)
Definition handleSearch (query : string) : M W Refs unit :=
  console_error "搜索内容:" (Js.ThrownString query).

Definition boot (w : W) : Sys W Refs := mkSys initialRefs w [] [].

End Handlers.
End App.

(** ** Two small hosts, used to run the handlers on concrete inputs *)

Module Hosts.

(** A host that is down: every command rejects. *)
Definition offline : Backend unit :=
  fun c w => (inl (Js.ThrownString "offline"), w).

Definition stored (title : string) : Password :=
  Password.mk ("id-" +:+ title) title "" [] "user"
    (EncryptedData.mk "c2VjcmV0" "bm9uY2U=" "c2FsdA==") None
    "2024-01-01T00:00:00Z" "2024-01-01T00:00:00Z".

(** A host that keeps the password list in memory. *)
Definition memory : Backend (list Password) :=
  fun c =>
    match c as c0 return list Password -> (Js.Thrown + Resp c0) * list Password with
    | initialize_manager => fun w => (inr tt, w)
    | get_all_passwords_from_storage _ => fun w =>
        (inr (StorageData.mk
                (StorageMetadata.mk "1.0" "2024-01-01T00:00:00Z"
                   (Z.of_nat (length w))) w), w)
    | search_passwords q => fun w =>
        (inr (filter (fun p => Password.title p = q) w), w)
    | add_password req => fun w =>
        (inr tt, w ++ [stored (PasswordCreateRequest.title req)])
    | delete_password id => fun w =>
        (inr tt, filter (fun p => Password.id p <> id) w)
    | decrypt_password _ _ => fun w => (inr "secret", w)
    | generate_password _ => fun w => (inr "Xy7!Xy7!Xy7!Xy7!", w)
    | greet name => fun w => (inr ("Hello, " +:+ name), w)
    | fetch_data => fun w => (inr (Data.mk "fetched" ∅), w)
    end.

End Hosts.

(** ** Vocabulary for the properties of the component *)

(** The tag list of the pending create request. *)
Definition tags_of {W} (s : Sys W Refs) : list string :=
  PasswordCreateRequest.tags (newPassword (refs s)).

Definition tags_ok (ts : list string) : Prop := NoDup ts ∧ ("" ∉ ts).

(** The guard of [addPassword], read positively. *)
Definition required_filled (np : PasswordCreateRequest) : bool :=
  negb (Js.falsy (PasswordCreateRequest.title np))
  && negb (Js.falsy (PasswordCreateRequest.username np))
  && negb (Js.falsy (PasswordCreateRequest.password np))
  && negb (Js.falsy (PasswordCreateRequest.key np)).

Definition all_filled (title username password key : string) : Prop :=
  title ≠ "" ∧ username ≠ "" ∧ password ≠ "" ∧ key ≠ "".

(** ** The command surface, as the specification lists it (section 6) *)

Definition command_surface : list string :=
  [ "initialize_manager"; "add_password"; "delete_password";
    "search_passwords"; "search_passwords_in_storage";
    "get_all_passwords_from_storage"; "get_password_by_id_from_storage";
    "get_storage_status"; "sync_storages"; "generate_password";
    "decrypt_password"; "decrypt_description"; "get_config"; "update_config";
    "verify_master_password" ].

Definition on_surface (c : Command) : Prop := command_name c ∈ command_surface.

(** ** Documents at the Tauri boundary

    What crosses [invoke] is JSON.  A TypeScript interface says which
    members a document has; the annotations are erased at run time, and the
    handlers read members off whatever document arrived. *)

Module Json.

Inductive t :=
| null
| bool (b : Datatypes.bool)
| num (n : Z)
| str (s : string)
| arr (items : list t)
| obj (members : list (string * t)).

Fixpoint lookup (name : string) (members : list (string * t)) : option t :=
  match members with
  | [] => None
  | (k, v) :: members' => if String.eqb k name then Some v else lookup name members'
  end.

(** [j.name]; [None] is [undefined]. *)
Definition get (name : string) (j : t) : option t :=
  match j with
  | obj members => lookup name members
  | _ => None
  end.

Definition has (name : string) (j : t) : Datatypes.bool :=
  match get name j with Some _ => true | None => false end.

End Json.

Module Ts.

(** The types the interfaces are built from; a field is
    [(name, (optional, type))]. *)
Inductive ty :=
| string_t
| number_t
| array_t (elem : ty)
| object_t (fields : list (string * (bool * ty))).

Fixpoint conforms (τ : ty) (j : Json.t) {struct τ} : bool :=
  match τ, j with
  | string_t, Json.str _ => true
  | number_t, Json.num _ => true
  | array_t elem, Json.arr items => forallb (conforms elem) items
  | object_t fields, Json.obj members =>
      forallb (fun f : string * (bool * ty) =>
                 match Json.lookup (fst f) members with
                 | Some v => conforms (snd (snd f)) v
                 | None => fst (snd f)
                 end) fields
  | _, _ => false
  end.

Definition required (name : string) (τ : ty) : string * (bool * ty) :=
  (name, (false, τ)).
Definition optional (name : string) (τ : ty) : string * (bool * ty) :=
  (name, (true, τ)).

Definition EncryptedData : ty :=
  object_t [required "ciphertext" string_t; required "nonce" string_t;
            required "salt" string_t].

Definition Password : ty :=
  object_t [required "id" string_t; required "title" string_t;
            required "description" string_t;
            required "tags" (array_t string_t);
            required "username" string_t;
            required "encrypted_password" EncryptedData;
            optional "url" string_t;
            required "created_at" string_t; required "updated_at" string_t].

Definition StorageMetadata : ty :=
  object_t [required "version" string_t; required "last_sync" string_t;
            required "password_count" number_t].

Definition StorageData : ty :=
  object_t [required "metadata" StorageMetadata;
            required "passwords" (array_t Password)].

End Ts.

(** A snapshot document named the way a data model names it: a [metadata]
    object with [version], [last_sync] and the count under [count_field]; the
    sequence under [list_field]; in each element the encrypted secret under
    [secret_field]. *)
Definition snapshot_shape (count_field list_field secret_field : string)
    (j : Json.t) : bool :=
  match Json.get "metadata" j, Json.get list_field j with
  | Some m, Some (Json.arr items) =>
      Json.has "version" m && Json.has "last_sync" m && Json.has count_field m
      && forallb (Json.has secret_field) items
  | _, _ => false
  end.

(** The shape in the specification's words (section 3, [StorageSnapshot],
    [StorageMetadata], [Entry]). *)
Definition StorageSnapshot_shape : Json.t -> bool :=
  snapshot_shape "entry_count" "entries" "encrypted_secret".

(** The shape in the front end's words ([StorageData], [StorageMetadata],
    [Password]). *)
Definition StorageData_shape : Json.t -> bool :=
  snapshot_shape "password_count" "passwords" "encrypted_password".

(** ** The snapshot handlers on the documents themselves

    [loadPasswords] and [decryptPasswordFunc] once more, this time without
    the type annotations: [invoke] resolves with any document, the displayed
    list is any value, and a member read gives the member, [undefined], or a
    [TypeError]. *)

Module Untyped.

(** A value that came through JSON, or [undefined] ([None]).  The members of
    an object are its properties, each key once. *)
Definition value : Type := option Json.t.

Inductive Thrown :=
| rejected (e : Js.Thrown)         (* the promise rejected *)
| type_error (message : string).   (* the engine threw a TypeError *)

(** [`${e}`] *)
Definition to_string (e : Thrown) : string :=
  match e with
  | rejected e => Js.to_string e
  | type_error message => "TypeError: " +:+ message
  end.

(** One [invoke]: the command name and the argument object. *)
Record Call := mkCall { command : string; arguments : list (string * value) }.

(** The host process and the web view's engine: the answers to [invoke], and
    the engine's wording of the TypeError for reading a member that cannot be
    read. *)
Class Host (W : Type) := mkHost {
  answer : Call → W → (Js.Thrown + Json.t) * W;
  type_error_text : string → string
}.

Record Dialog := mkDialog {
  id : string;
  key : string;
  decrypted : value;
  encryptedData : value
}.

Record Refs := mkRefs {
  passwords : value;
  error : string;
  showDecryptDialog : bool;
  decryptPassword : Dialog
}.

Record Sys (W : Type) := mkSys {
  refs : Refs;
  world : W;
  invoked : list Call;
  console : list (string * Thrown)
}.
Arguments mkSys {W}.
Arguments refs {W}.
Arguments world {W}.
Arguments invoked {W}.
Arguments console {W}.

Definition initialRefs : Refs :=
  mkRefs (Some (Json.arr [])) "" false
    (mkDialog "" "" (Some (Json.str "")) (Some Json.null)).

Definition boot {W} (w : W) : Sys W := mkSys initialRefs w [] [].

(** Truthiness of a value. *)
Definition truthy (v : value) : bool :=
  match v with
  | None | Some Json.null => false
  | Some (Json.bool b) => b
  | Some (Json.num n) => negb (Z.eqb n 0)
  | Some (Json.str s) => negb (Js.falsy s)
  | Some (Json.arr _) | Some (Json.obj _) => true
  end.

(** [v === s] for a string [s]. *)
Definition strict_equal (v : value) (s : string) : bool :=
  match v with
  | Some (Json.str t) => String.eqb t s
  | _ => false
  end.

Definition load_call : Call :=
  mkCall "get_all_passwords_from_storage"
    [("storageTarget", Some (Json.str "local"))].

Definition decrypt_call (password : value) (key : string) : Call :=
  mkCall "decrypt_password"
    [("password", password); ("user_password", Some (Json.str key))].

Section Handlers.
Context {W : Type} {host : Host W}.

(** [v.name]: a TypeError on [null] and [undefined]; otherwise the member, or
    [undefined] when there is none. *)
Definition member (name : string) (v : value) : Thrown + value :=
  match v with
  | None | Some Json.null => inl (type_error (type_error_text name))
  | Some j => inr (Json.get name j)
  end.

(** [items.find(p => p.id === id)] on an array. *)
Fixpoint find_id (id : string) (items : list Json.t) : Thrown + value :=
  match items with
  | [] => inr None
  | p :: rest =>
      match member "id" (Some p) with
      | inl e => inl e
      | inr v => if strict_equal v id then inr (Some p) else find_id id rest
      end
  end.

(** [list.find(p => p.id === id)]: only an array has [find]. *)
Definition find_password (id : string) (list : value) : Thrown + value :=
  match list with
  | Some (Json.arr items) => find_id id items
  | _ => inl (type_error (type_error_text "find"))
  end.

Definition loadPasswords (s : Sys W) : Sys W :=
  let (res, w) := answer load_call (world s) in
  let r := refs s in
  let caught (e : Thrown) :=
    mkSys (mkRefs (Some (Json.arr [])) ("加载密码失败: " +:+ to_string e)
             (showDecryptDialog r) (decryptPassword r))
      w (invoked s ++ [load_call]) (console s ++ [("加载密码错误:", e)]) in
  match res with
  | inl e => caught (rejected e)
  | inr storageData =>
      match member "passwords" (Some storageData) with
      | inl e => caught e
      | inr list =>
          mkSys (mkRefs list (error r) (showDecryptDialog r) (decryptPassword r))
            w (invoked s ++ [load_call]) (console s)
      end
  end.

Definition decryptPasswordFunc (id key : string) (s : Sys W) : Sys W :=
  let r := refs s in
  let caught (e : Thrown) (w : W) (calls : list Call) :=
    mkSys (mkRefs (passwords r) ("解密密码失败: " +:+ to_string e)
             (showDecryptDialog r) (decryptPassword r))
      w calls (console s ++ [("解密密码错误:", e)]) in
  match find_password id (passwords r) with
  | inl e => caught e (world s) (invoked s)
  | inr password =>
      if negb (truthy password) then s
      else
        match member "encrypted_password" password with
        | inl e => caught e (world s) (invoked s)
        | inr secret =>
            let call := decrypt_call secret key in
            let (res, w) := answer call (world s) in
            match res with
            | inr decrypted =>
                mkSys (mkRefs (passwords r) (error r) true
                         (mkDialog id key (Some decrypted) secret))
                  w (invoked s ++ [call]) (console s)
            | inl e => caught (rejected e) w (invoked s ++ [call])
            end
        end
  end.

End Handlers.

(** A snapshot document with one entry, its members named by the three
    names that differ between the specification and the front end. *)
Definition snapshot_document (count_field list_field secret_field : string)
  : Json.t :=
  Json.obj
    [("metadata",
      Json.obj [("version", Json.str "1.0");
                ("last_sync", Json.str "2024-01-01T00:00:00Z");
                (count_field, Json.num 1)]);
     (list_field,
      Json.arr
        [Json.obj
           [("id", Json.str "X"); ("title", Json.str "Bank");
            ("description", Json.str ""); ("tags", Json.arr []);
            ("username", Json.str "me");
            (secret_field,
             Json.obj [("ciphertext", Json.str "c2VjcmV0");
                       ("nonce", Json.str "bm9uY2U=");
                       ("salt", Json.str "c2FsdA==")]);
            ("created_at", Json.str "2024-01-01T00:00:00Z");
            ("updated_at", Json.str "2024-01-01T00:00:00Z")]])].

(** A host that answers every load with [doc]. *)
Definition serving (doc : Json.t) : Host unit :=
  {| answer := λ call w,
       (inr (if String.eqb (command call) "get_all_passwords_from_storage"
             then doc else Json.str "p@ss1"), w);
     type_error_text := λ name,
       "Cannot read properties of undefined (reading '" +:+ name +:+ "')" |}.

End Untyped.

(** * The back end, as the specification describes it

    The Rust sources ([crypto.rs], [manager.rs], [store.rs], ...) are not
    among the sources at hand; what follows is written from the
    specification. *)

(** ** AES-256 (FIPS 197), encryption direction

    Bytes are numbers below 256 inside this module. *)

Module Aes.

Local Open Scope N_scope.

(** Multiplication by [x] in GF(2^8) modulo x^8 + x^4 + x^3 + x + 1. *)
Definition xtime (a : N) : N :=
  let b := N.shiftl a 1 in
  if N.testbit a 7 then N.lxor (N.land b 255) 27 else b.

(** Product in GF(2^8): shift and add over the eight bits of [b]. *)
Fixpoint gmul_loop (n : nat) (a b acc : N) : N :=
  match n with
  | O => acc
  | S n' =>
      gmul_loop n' (xtime a) (N.shiftr b 1)
        (if N.testbit b 0 then N.lxor acc a else acc)
  end.
Definition gmul (a b : N) : N := gmul_loop 8 a b 0.

Fixpoint gpow (a : N) (n : nat) : N :=
  match n with
  | O => 1
  | S n' => gmul a (gpow a n')
  end.

(** The inverse in GF(2^8) is the 254th power; 0 goes to 0. *)
Definition ginv (a : N) : N := gpow a 254.

Definition rotl8 (a : N) (k : N) : N :=
  N.land (N.lor (N.shiftl a k) (N.shiftr a (8 - k))) 255.

Definition sbox (a : N) : N :=
  let b := ginv a in
  N.lxor (N.lxor (N.lxor (N.lxor (N.lxor b (rotl8 b 1)) (rotl8 b 2)) (rotl8 b 3))
            (rotl8 b 4)) 99.

Definition sbox_table : list N :=
  Eval vm_compute in map (fun i => sbox (N.of_nat i)) (seq 0 256).

Definition sub (a : N) : N := nth (N.to_nat a) sbox_table 0.

Definition xor_bytes (a b : list N) : list N := zip_with N.lxor a b.

(** Key schedule for a 256-bit key: 60 words, built eight-word window by
    eight-word window. *)
Definition sub_word (w : list N) : list N := map sub w.
Definition rot_word (w : list N) : list N :=
  match w with
  | a :: rest => rest ++ [a]
  | [] => []
  end.

(** A word of the key schedule is four bytes. *)
Definition word_ok (w : list N) : Prop := length w = 4%nat.

Definition word_at (ws : list (list N)) (i : nat) : list N := nth i ws [0; 0; 0; 0].

Fixpoint expand_loop (n : nat) (i : nat) (rcon : N) (ws : list (list N))
  : list (list N) :=
  match n with
  | O => ws
  | S n' =>
      let temp := word_at ws (i - 1) in
      let '(temp', rcon') :=
        if Nat.eqb (i mod 8) 0 then
          (xor_bytes (sub_word (rot_word temp)) [rcon; 0; 0; 0], xtime rcon)
        else if Nat.eqb (i mod 8) 4 then (sub_word temp, rcon)
        else (temp, rcon) in
      expand_loop n' (S i) rcon' (ws ++ [xor_bytes (word_at ws (i - 8)) temp'])
  end.

Fixpoint words_of (n : nat) (bs : list N) : list (list N) :=
  match n with
  | O => []
  | S n' => take 4 (bs ++ [0;0;0;0]) :: words_of n' (drop 4 bs)
  end.

Definition key_expansion (key : list N) : list (list N) :=
  expand_loop 52 8 1 (words_of 8 key).

Definition round_key (ws : list (list N)) (r : nat) : list N :=
  concat (take 4 (drop (4 * r) ws)).

Definition sub_bytes (st : list N) : list N := map sub st.

(** Byte [r + 4c] of the state sits in row [r], column [c]; row [r] moves
    left by [r]. *)
Definition shift_rows (st : list N) : list N :=
  map (fun i => nth ((i mod 4) + 4 * (((i / 4) + (i mod 4)) mod 4))%nat st 0)
      (seq 0 16).

Definition mix_column (c : list N) : list N :=
  match c with
  | [s0; s1; s2; s3] =>
      [ N.lxor (N.lxor (N.lxor (gmul 2 s0) (gmul 3 s1)) s2) s3;
        N.lxor (N.lxor (N.lxor s0 (gmul 2 s1)) (gmul 3 s2)) s3;
        N.lxor (N.lxor (N.lxor s0 s1) (gmul 2 s2)) (gmul 3 s3);
        N.lxor (N.lxor (N.lxor (gmul 3 s0) s1) s2) (gmul 2 s3) ]
  | _ => c
  end.

Definition mix_columns (st : list N) : list N :=
  concat (map mix_column (words_of 4 st)).

Fixpoint rounds (n : nat) (r : nat) (ws : list (list N)) (st : list N) : list N :=
  match n with
  | O => st
  | S n' =>
      rounds n' (S r) ws
        (xor_bytes (mix_columns (shift_rows (sub_bytes st))) (round_key ws r))
  end.

(** Modelled from the spec: the block cipher under [CryptoService] (section
    4.2, AES-256-GCM); [crypto.rs] and the cipher it calls are missing.
    AES-256 on one 16-byte block. *)
Definition encrypt_block (key block : list N) : list N :=
  let ws := key_expansion key in
  let st := rounds 13 1 ws (xor_bytes block (round_key ws 0)) in
  xor_bytes (shift_rows (sub_bytes st)) (round_key ws 14).

End Aes.


(** ** Byte strings *)

Module Bytes.

Local Open Scope N_scope.

Definition byte_of_N (n : N) : byte :=
  match Byte.of_N (n mod 256) with
  | Some b => b
  | None => Byte.x00
  end.

Definition to_Ns (bs : list byte) : list N := map Byte.to_N bs.
Definition of_Ns (ns : list N) : list byte := map byte_of_N ns.

Definition xor_bits (a b : bool * (bool * (bool * (bool * (bool * (bool * (bool * bool)))))))
  : bool * (bool * (bool * (bool * (bool * (bool * (bool * bool)))))) :=
  let '(a0, (a1, (a2, (a3, (a4, (a5, (a6, a7))))))) := a in
  let '(b0, (b1, (b2, (b3, (b4, (b5, (b6, b7))))))) := b in
  (xorb a0 b0, (xorb a1 b1, (xorb a2 b2, (xorb a3 b3,
   (xorb a4 b4, (xorb a5 b5, (xorb a6 b6, xorb a7 b7))))))).

Definition xor_byte (a b : byte) : byte :=
  Byte.of_bits (xor_bits (Byte.to_bits a) (Byte.to_bits b)).

(** Bytewise xor, as long as the shorter argument. *)
Definition xor (a b : list byte) : list byte := zip_with xor_byte a b.

Fixpoint eqb (a b : list byte) : bool :=
  match a, b with
  | [], [] => true
  | x :: a', y :: b' => Byte.eqb x y && eqb a' b'
  | _, _ => false
  end.

(** Big-endian value of a byte string, and back at a given width. *)
Definition be_to_N (bs : list byte) : N :=
  fold_left (fun acc b => acc * 256 + Byte.to_N b) bs 0.

Definition N_to_be (width : nat) (n : N) : list byte :=
  map (fun i => byte_of_N (N.shiftr n (8 * N.of_nat (width - 1 - i)))) (seq 0 width).

Definition zeros (n : nat) : list byte := replicate n Byte.x00.

End Bytes.

(** ** Galois/Counter mode over AES-256, 96-bit nonces, no associated data
    (NIST SP 800-38D) *)

Module Gcm.

Local Open Scope N_scope.

Definition tag_length : nat := 16.
Definition nonce_length : nat := 12.

(** The block cipher on byte strings. *)
Definition cipher (key block : list byte) : list byte :=
  Bytes.of_Ns (Aes.encrypt_block (Bytes.to_Ns key) (Bytes.to_Ns block)).

(** Counter block: the 96-bit nonce followed by a 32-bit big-endian counter. *)
Definition counter_block (nonce : list byte) (ctr : N) : list byte :=
  nonce ++ Bytes.N_to_be 4 (ctr mod 2 ^ 32).

(** Key stream for [len] bytes: counters 2, 3, ... (counter 1 masks the tag). *)
Definition keystream (key nonce : list byte) (len : nat) : list byte :=
  take len
    (concat (map (fun j => cipher key (counter_block nonce (2 + N.of_nat j)))
               (seq 0 ((len + 15) / 16)))).

(** Multiplication in GF(2^128), bits numbered from the left. *)
Definition R : N := N.shiftl 225 120.

Fixpoint mul_loop (n : nat) (x v z : N) : N :=
  match n with
  | O => z
  | S n' =>
      mul_loop n' x
        (if N.testbit v 0 then N.lxor (N.shiftr v 1) R else N.shiftr v 1)
        (if N.testbit x (N.of_nat n') then N.lxor z v else z)
  end.

Definition mul (x y : N) : N := mul_loop 128 x y 0.

(** 16-byte blocks of a byte string, the last one zero-padded. *)
Fixpoint blocks (fuel : nat) (bs : list byte) : list N :=
  match fuel, bs with
  | O, _ => []
  | _, [] => []
  | S fuel', _ =>
      Bytes.be_to_N (take 16 (bs ++ Bytes.zeros 16)) :: blocks fuel' (drop 16 bs)
  end.

(** GHASH with no associated data. *)
Definition ghash (h : N) (ct : list byte) : N :=
  fold_left (fun y x => mul (N.lxor y x) h)
    (blocks (length ct) ct ++ [8 * N.of_nat (length ct)]) 0.

Definition tag (key nonce ct : list byte) : list byte :=
  Bytes.xor (cipher key (counter_block nonce 1))
    (Bytes.N_to_be 16 (ghash (Bytes.be_to_N (cipher key (Bytes.zeros 16))) ct)).

(** Modelled from the spec: the AEAD encryption [CryptoService.encrypt] runs
    (section 4.2); [crypto.rs] is missing.  Ciphertext followed by the tag,
    so that its length is the plaintext's plus the tag's. *)
Definition seal (key nonce pt : list byte) : list byte :=
  let ct := Bytes.xor pt (keystream key nonce (length pt)) in
  ct ++ tag key nonce ct.

(** Modelled from the spec: the AEAD decryption [CryptoService.decrypt] runs
    (section 4.2); [crypto.rs] is missing.  Nothing is returned unless the
    tag matches. *)
Definition open (key nonce data : list byte) : option (list byte) :=
  let n := (length data - tag_length)%nat in
  let ct := take n data in
  if Bytes.eqb (drop n data) (tag key nonce ct)
  then Some (Bytes.xor ct (keystream key nonce n))
  else None.

End Gcm.


(** ** CryptoService and PasswordManager *)

Module Core.

Inductive Error :=
| ValidationError
| KeyDerivationError
| DecryptionError
| MalformedCiphertextError
| StorageUnavailableError
| ConflictError
| NotFoundError.

Inductive Result (A : Type) :=
| Ok (a : A)
| Err (e : Error).
Arguments Ok {A}.
Arguments Err {A}.

(** The operating system's random source: an unending byte stream and how
    far it has been read. *)
Record Rng := mkRng { stream : nat -> byte; pos : nat }.

Definition random_bytes (n : nat) (g : Rng) : list byte * Rng :=
  (map (stream g) (seq (pos g) n), mkRng (stream g) (pos g + n)).

Module MasterKey.
Record t := mk { derived_key : list byte; salt : list byte }.
Definition key_length : nat := 32.
Definition valid (k : t) : Prop := length (derived_key k) = key_length.
End MasterKey.
Abbreviation MasterKey := MasterKey.t.

Module EncryptedData.
Record t := mk { ciphertext : list byte; nonce : list byte; salt : list byte }.
End EncryptedData.
Abbreviation EncryptedData := EncryptedData.t.

(** Modelled from the spec: [CryptoService.encrypt] of [crypto.rs], which is
    missing (section 4.2).  A fresh random nonce, AES-256-GCM under the
    derived key; the result carries ciphertext (with its tag), nonce and the
    key's salt. *)
Definition encrypt (key : MasterKey) (plaintext : list byte) (g : Rng)
  : EncryptedData * Rng :=
  let (nonce, g') := random_bytes Gcm.nonce_length g in
  (EncryptedData.mk (Gcm.seal (MasterKey.derived_key key) nonce plaintext)
     nonce (MasterKey.salt key), g').

(** Lengths a ciphertext can have: a 12-byte nonce, and at least the tag. *)
Definition well_formed (data : EncryptedData) : bool :=
  Nat.eqb (length (EncryptedData.nonce data)) Gcm.nonce_length
  && Nat.leb Gcm.tag_length (length (EncryptedData.ciphertext data)).

(** Modelled from the spec: [CryptoService.decrypt] of [crypto.rs], which is
    missing (section 4.2).  Malformed lengths are rejected first; any failure
    of the cipher is the one [DecryptionError]. *)
Definition decrypt (key : MasterKey) (data : EncryptedData)
  : Result (list byte) :=
  if negb (well_formed data) then Err MalformedCiphertextError
  else
    match Gcm.open (MasterKey.derived_key key) (EncryptedData.nonce data)
            (EncryptedData.ciphertext data) with
    | Some plaintext => Ok plaintext
    | None => Err DecryptionError
    end.

(** Modelled from the spec: the optional double encryption of [crypto.rs],
    which is missing (section 4.2).  The first layer's nonce and ciphertext
    are encrypted again under the secondary key. *)
Definition encrypt_twice (key secondary : MasterKey) (plaintext : list byte)
    (g : Rng) : EncryptedData * Rng :=
  let (inner, g') := encrypt key plaintext g in
  encrypt secondary
    (EncryptedData.nonce inner ++ EncryptedData.ciphertext inner) g'.

Definition decrypt_twice (key secondary : MasterKey) (data : EncryptedData)
  : Result (list byte) :=
  match decrypt secondary data with
  | Err e => Err e
  | Ok layer =>
      decrypt key
        (EncryptedData.mk (drop Gcm.nonce_length layer)
           (take Gcm.nonce_length layer) (MasterKey.salt key))
  end.

(** *** Data model *)

Module Entry.
Record t := mk {
  id : string;
  title : string;
  description : string + EncryptedData;
  tags : gset string;
  username : string;
  encrypted_secret : EncryptedData;
  url : option string;
  created_at : Z;
  updated_at : Z
}.
End Entry.
Abbreviation Entry := Entry.t.

Module StorageMetadata.
Record t := mk { version : string; last_sync : Z; entry_count : Z }.
End StorageMetadata.
Abbreviation StorageMetadata := StorageMetadata.t.

Module StorageSnapshot.
Record t := mk { metadata : StorageMetadata; entries : list Entry }.
End StorageSnapshot.
Abbreviation StorageSnapshot := StorageSnapshot.t.

Inductive StorageTarget := Local | Remote | All.

#[global] Instance StorageTarget_eq_dec : EqDecision StorageTarget.
Proof. solve_decision. Defined.

#[global] Instance StorageTarget_countable : Countable StorageTarget.
Proof.
  refine (inj_countable'
            (λ t, match t with Local => 0%nat | Remote => 1%nat | All => 2%nat end)
            (λ n, match n with 0%nat => Local | 1%nat => Remote | _ => All end) _).
  by intros [].
Defined.

(** *** Storage

    One backend: whether configuration enables it, whether it can be
    reached, and the snapshot it holds. *)

Module Storage.
Record t := mk { enabled : bool; connected : bool; snapshot : StorageSnapshot }.

Definition load (st : t) : Result StorageSnapshot :=
  if connected st then Ok (snapshot st) else Err StorageUnavailableError.

(** The whole snapshot is replaced, or nothing is. *)
Definition save (snap : StorageSnapshot) (st : t) : Result t :=
  if connected st then Ok (mk (enabled st) (connected st) snap)
  else Err StorageUnavailableError.
End Storage.
Abbreviation Storage := Storage.t.

(** *** PasswordManager *)

(** Cost parameters of the key-derivation function. *)
Record KdfParams := mkKdf { memory_cost : Z; iterations : Z; parallelism : Z }.

Record PasswordManager := mkManager {
  storages : gmap StorageTarget Storage;
  double_encryption : bool;
  kdf : KdfParams;
  salt : list byte;
  secondary_salt : list byte
}.

Definition with_storages (f : gmap StorageTarget Storage → gmap StorageTarget Storage)
    (m : PasswordManager) : PasswordManager :=
  mkManager (f (storages m)) (double_encryption m) (kdf m) (salt m)
    (secondary_salt m).

(** The fixed merge order: local before remote. *)
Definition priority_order : list StorageTarget := [Local; Remote].

Definition enabled_storage (m : PasswordManager) (target : StorageTarget)
  : option Storage :=
  match storages m !! target with
  | Some st => if Storage.enabled st then Some st else None
  | None => None
  end.

Definition enabled_storages (m : PasswordManager) : list (StorageTarget * Storage) :=
  omap (λ target, (λ st, (target, st)) <$> enabled_storage m target) priority_order.

Definition same_id (e : Entry) (x : Entry) : bool :=
  String.eqb (Entry.id x) (Entry.id e).

Definition ids (es : list Entry) : list string := map Entry.id es.

(** Modelled from the spec: the merge step of [manager.rs], which is missing
    (section 4.4).  [e] overwrites the entry that has its id, or is
    appended. *)
Definition upsert (e : Entry) (acc : list Entry) : list Entry :=
  if existsb (same_id e) acc
  then map (λ x, if same_id e x then e else x) acc
  else acc ++ [e].

Definition merge (acc es : list Entry) : list Entry :=
  fold_left (λ acc e, upsert e acc) es acc.

Fixpoint load_all (sts : list (StorageTarget * Storage))
  : Result (list StorageSnapshot) :=
  match sts with
  | [] => Ok []
  | (_, st) :: rest =>
      match Storage.load st with
      | Err e => Err e
      | Ok snap =>
          match load_all rest with
          | Err e => Err e
          | Ok snaps => Ok (snap :: snaps)
          end
      end
  end.

Definition merge_all (snaps : list StorageSnapshot) : list Entry :=
  fold_left (λ acc snap, merge acc (StorageSnapshot.entries snap)) snaps [].

(** Modelled from the spec: [PasswordManager.get_all] of [manager.rs], which
    is missing (section 4.4).  [All] loads every enabled backend in priority
    order and merges, a later backend overwriting on equal ids; a named
    backend gives its entries as they are. *)
Definition get_all (m : PasswordManager) (target : StorageTarget)
  : Result (list Entry) :=
  match target with
  | All =>
      match load_all (enabled_storages m) with
      | Err e => Err e
      | Ok snaps => Ok (merge_all snaps)
      end
  | _ =>
      match enabled_storage m target with
      | None => Err StorageUnavailableError
      | Some st =>
          match Storage.load st with
          | Err e => Err e
          | Ok snap => Ok (StorageSnapshot.entries snap)
          end
      end
  end.

(** *** Synchronisation *)

Record SyncReport := mkReport { added : nat; overwritten : nat; kept : nat }.

Inductive SyncAction := Added | Overwritten | Kept.

(** Modelled from the spec: the per-entry rule of [sync_storages]
    ([manager.rs], missing; section 4.4).  Last write wins, and only a
    strictly newer [updated_at] overwrites. *)
Definition sync_entry (e : Entry) (acc : list Entry) : list Entry * SyncAction :=
  match find (same_id e) acc with
  | Some old =>
      if (Entry.updated_at old <? Entry.updated_at e)%Z
      then (map (λ x, if same_id e x then e else x) acc, Overwritten)
      else (acc, Kept)
  | None => (acc ++ [e], Added)
  end.

Definition count (a : SyncAction) (r : SyncReport) : SyncReport :=
  match a with
  | Added => mkReport (S (added r)) (overwritten r) (kept r)
  | Overwritten => mkReport (added r) (S (overwritten r)) (kept r)
  | Kept => mkReport (added r) (overwritten r) (S (kept r))
  end.

Definition sync_entries (from_entries to_entries : list Entry)
  : list Entry * SyncReport :=
  fold_left (λ '(acc, r) e, let (acc', a) := sync_entry e acc in (acc', count a r))
    from_entries (to_entries, mkReport 0 0 0).

(** Modelled from the spec: [PasswordManager.sync_storages] of [manager.rs],
    which is missing (section 4.4).  Both backends are loaded, [from]'s
    entries are written into [to]'s, and the result is saved to [to] as one
    snapshot. *)
Definition sync_storages (m : PasswordManager) (from to : StorageTarget) (now : Z)
  : Result (PasswordManager * SyncReport) :=
  match enabled_storage m from, enabled_storage m to with
  | Some sf, Some st =>
      match Storage.load sf, Storage.load st with
      | Ok fs, Ok ts =>
          let (merged, report) :=
            sync_entries (StorageSnapshot.entries fs) (StorageSnapshot.entries ts) in
          let snap :=
            StorageSnapshot.mk
              (StorageMetadata.mk
                 (StorageMetadata.version (StorageSnapshot.metadata ts)) now
                 (Z.of_nat (length merged)))
              merged in
          match Storage.save snap st with
          | Ok st' => Ok (with_storages (<[to := st']>) m, report)
          | Err e => Err e
          end
      | Err e, _ => Err e
      | _, Err e => Err e
      end
  | _, _ => Err StorageUnavailableError
  end.

(** *** Adding an entry *)

Module CreateRequest.
Record t := mk {
  title : string;
  description : string;
  tags : list string;
  username : string;
  password : string;
  url : option string;
  key : string
}.
End CreateRequest.
Abbreviation CreateRequest := CreateRequest.t.

Definition non_empty (s : string) : bool := negb (String.eqb s "").

(** The fields a create request must fill: the ones the add form marks as
    required. *)
Definition required_present (req : CreateRequest) : bool :=
  non_empty (CreateRequest.title req)
  && non_empty (CreateRequest.username req)
  && non_empty (CreateRequest.password req)
  && non_empty (CreateRequest.key req).

Definition hex_digit (n : N) : ascii :=
  nth (N.to_nat n) (list_ascii_of_string "0123456789abcdef") "0"%char.

Definition hex (bs : list byte) : string :=
  string_of_list_ascii
    (flat_map (λ b, [hex_digit (Byte.to_N b / 16); hex_digit (Byte.to_N b mod 16)]) bs).

(** A fresh id: 128 random bits, in hexadecimal. *)
Definition fresh_id (g : Rng) : string * Rng :=
  let (bs, g') := random_bytes 16 g in (hex bs, g').

Definition append_entry (e : Entry) (snap : StorageSnapshot) : StorageSnapshot :=
  StorageSnapshot.mk
    (StorageMetadata.mk
       (StorageMetadata.version (StorageSnapshot.metadata snap))
       (StorageMetadata.last_sync (StorageSnapshot.metadata snap))
       (Z.of_nat (length (StorageSnapshot.entries snap) + 1)))
    (StorageSnapshot.entries snap ++ [e]).

Definition write_entry (e : Entry) (st : Storage) : Result Storage :=
  match Storage.load st with
  | Err err => Err err
  | Ok snap => Storage.save (append_entry e snap) st
  end.

(** Write to each backend in turn; a failed backend is reported and the
    others keep what was written. *)
Fixpoint write_all (e : Entry) (targets : list (StorageTarget * Storage))
    (m : PasswordManager) : PasswordManager * list StorageTarget :=
  match targets with
  | [] => (m, [])
  | (target, st) :: rest =>
      match write_entry e st with
      | Ok st' => write_all e rest (with_storages (<[target := st']>) m)
      | Err _ =>
          let (m', failed) := write_all e rest m in (m', target :: failed)
      end
  end.

Record AddOutcome := mkOutcome {
  outcome : Result Entry;
  failed : list StorageTarget;      (* backends the write did not reach *)
  manager : PasswordManager;
  rng : Rng
}.

Section Add.

(** Argon2id itself is taken as given: secret and salt to key bytes, or
    nothing when the primitive fails. *)
Variable argon2id : KdfParams → string → list byte → option (list byte).

Definition derive (params : KdfParams) (secret : string) (salt : list byte)
  : Result MasterKey :=
  if (memory_cost params <=? 0)%Z || (iterations params <=? 0)%Z
     || (parallelism params <=? 0)%Z
  then Err KeyDerivationError
  else
    match argon2id params secret salt with
    | Some k =>
        if Nat.eqb (length k) MasterKey.key_length
        then Ok (MasterKey.mk k salt)
        else Err KeyDerivationError
    | None => Err KeyDerivationError
    end.

(** The description as stored: as it is, or encrypted twice. *)
Definition protect_description (m : PasswordManager) (key : MasterKey)
    (req : CreateRequest) (g : Rng)
  : Result (string + EncryptedData) * Rng :=
  if double_encryption m then
    match derive (kdf m) (CreateRequest.key req) (secondary_salt m) with
    | Err e => (Err e, g)
    | Ok secondary =>
        let (d, g') :=
          encrypt_twice key secondary
            (list_byte_of_string (CreateRequest.description req)) g in
        (Ok (inr d), g')
    end
  else (Ok (inl (CreateRequest.description req)), g).

(** Modelled from the spec: [PasswordManager.add] of [manager.rs], which is
    missing (section 4.4).  Validate, encrypt the secret (and the description,
    under double encryption), give the entry a fresh id and the current time,
    write it to the chosen backends.  [targets]: the backends to write to;
    [None] is every enabled one. *)
Definition add (m : PasswordManager) (req : CreateRequest)
    (targets : option (list StorageTarget)) (now : Z) (g : Rng) : AddOutcome :=
  if negb (required_present req) then mkOutcome (Err ValidationError) [] m g
  else
    match derive (kdf m) (CreateRequest.key req) (salt m) with
    | Err e => mkOutcome (Err e) [] m g
    | Ok key =>
        let (secret, g1) :=
          encrypt key (list_byte_of_string (CreateRequest.password req)) g in
        match protect_description m key req g1 with
        | (Err e, g2) => mkOutcome (Err e) [] m g2
        | (Ok description, g2) =>
            let (id, g3) := fresh_id g2 in
            let e :=
              Entry.mk id (CreateRequest.title req) description
                (list_to_set (CreateRequest.tags req))
                (CreateRequest.username req) secret (CreateRequest.url req)
                now now in
            let chosen :=
              match targets with
              | None => enabled_storages m
              | Some ts => filter (λ p, p.1 ∈ ts) (enabled_storages m)
              end in
            let (m', failed) := write_all e chosen m in
            mkOutcome
              (match failed with
               | [] => Ok e
               | _ :: _ => Err StorageUnavailableError
               end)
              failed m' g3
        end
    end.

End Add.

(** How the back end reads the front end's request. *)
Definition of_request (r : PasswordCreateRequest) : CreateRequest :=
  CreateRequest.mk (PasswordCreateRequest.title r)
    (PasswordCreateRequest.description r) (PasswordCreateRequest.tags r)
    (PasswordCreateRequest.username r) (PasswordCreateRequest.password r)
    (PasswordCreateRequest.url r) (PasswordCreateRequest.key r).

End Core.

(** ** Sample data for running the manager on concrete inputs *)

Module Samples.
Import Core.

Definition blob : EncryptedData :=
  EncryptedData.mk (Bytes.zeros 21) (Bytes.zeros 12) (Bytes.zeros 16).

Definition entry (id title : string) (updated : Z) : Entry :=
  Entry.mk id title (inl "") ∅ "user" blob None 0 updated.

Definition backend (es : list Entry) : Storage :=
  Storage.mk true true
    (StorageSnapshot.mk (StorageMetadata.mk "1" 0 (Z.of_nat (length es))) es).

Definition manager (local remote : list Entry) : PasswordManager :=
  mkManager (<[Local := backend local]> (<[Remote := backend remote]> ∅))
    false (mkKdf 65536 3 4) (Bytes.zeros 16) (Bytes.zeros 16).

End Samples.

(** ** The password generator

    The generator's sources are not at hand and the specification gives its
    contract only; this is a generator written to that contract. *)

Module Generator.
Import Core.

Inductive Class := Uppercase | Lowercase | Numbers | Symbols.

#[global] Instance Class_eq_dec : EqDecision Class.
Proof. solve_decision. Defined.

Definition classes : list Class := [Uppercase; Lowercase; Numbers; Symbols].

Definition class_chars (cls : Class) : list ascii :=
  list_ascii_of_string
    match cls with
    | Uppercase => "ABCDEFGHIJKLMNOPQRSTUVWXYZ"
    | Lowercase => "abcdefghijklmnopqrstuvwxyz"
    | Numbers => "0123456789"
    | Symbols => "!@#$%^&*()-_=+[]{};:,.<>?/"
    end.

(** Every character a password can be made of. *)
Definition alphabet : list ascii := flat_map class_chars classes.

Definition chars (s : string) : list ascii := list_ascii_of_string s.

(** The classes whose [require_*] flag is set. *)
Definition required (cfg : PasswordGeneratorConfig) : list Class :=
  (if PasswordGeneratorConfig.require_uppercase cfg then [Uppercase] else [])
  ++ (if PasswordGeneratorConfig.require_lowercase cfg then [Lowercase] else [])
  ++ (if PasswordGeneratorConfig.require_numbers cfg then [Numbers] else [])
  ++ (if PasswordGeneratorConfig.require_symbols cfg then [Symbols] else []).

Definition excluded (cfg : PasswordGeneratorConfig) : list ascii :=
  match PasswordGeneratorConfig.exclude_chars cfg with
  | Some s => chars s
  | None => []
  end.

(** The characters of a class that are not excluded. *)
Definition allowed (cfg : PasswordGeneratorConfig) (cls : Class) : list ascii :=
  filter (λ c, c ∉ excluded cfg) (class_chars cls).

Definition pool (cfg : PasswordGeneratorConfig) : list ascii :=
  flat_map (allowed cfg) classes.

Definition is_nil {A} (l : list A) : bool :=
  match l with [] => true | _ :: _ => false end.

(** A random index below [bound], from one random byte. *)
Definition random_index (bound : nat) (g : Rng) : nat * Rng :=
  let (bs, g') := random_bytes 1 g in
  (match bs with
   | b :: _ => N.to_nat (Byte.to_N b) mod bound
   | [] => 0
   end, g').

Definition pick (l : list ascii) (g : Rng) : ascii * Rng :=
  let (i, g') := random_index (length l) g in (nth i l Ascii.zero, g').

(** One character from each set. *)
Fixpoint pick_each (sets : list (list ascii)) (g : Rng) : list ascii * Rng :=
  match sets with
  | [] => ([], g)
  | set :: rest =>
      let (c, g1) := pick set g in
      let (cs, g2) := pick_each rest g1 in
      (c :: cs, g2)
  end.

(** [n] characters from one set. *)
Fixpoint pick_many (n : nat) (l : list ascii) (g : Rng) : list ascii * Rng :=
  match n with
  | O => ([], g)
  | S n' =>
      let (c, g1) := pick l g in
      let (cs, g2) := pick_many n' l g1 in
      (c :: cs, g2)
  end.

Definition insert_at (i : nat) (c : ascii) (l : list ascii) : list ascii :=
  take i l ++ c :: drop i l.

(** Shuffle by inserting each character at a random place. *)
Fixpoint shuffle (cs acc : list ascii) (g : Rng) : list ascii * Rng :=
  match cs with
  | [] => (acc, g)
  | c :: rest =>
      let (i, g1) := random_index (S (length acc)) g in
      shuffle rest (insert_at i c acc) g1
  end.

(** The configurations no password can satisfy: a length below 1 or below
    the number of required classes, a required class with every character
    excluded, or nothing left to draw from. *)
Definition rejects (cfg : PasswordGeneratorConfig) : bool :=
  let n := PasswordGeneratorConfig.length cfg in
  (n <? 1)%Z
  || (n <? Z.of_nat (length (required cfg)))%Z
  || existsb (λ cls, is_nil (allowed cfg cls)) (required cfg)
  || is_nil (pool cfg).

(** Modelled from the spec: the back end's [generate_password], which is
    missing (section 6 gives its contract).  One random character from each
    required class, the rest from everything allowed, then a shuffle. *)
Definition generate (cfg : PasswordGeneratorConfig) (g : Rng)
  : Result string * Rng :=
  let n := PasswordGeneratorConfig.length cfg in
  let req := required cfg in
  if rejects cfg then (Err ValidationError, g)
  else
    let (must, g1) := pick_each (map (allowed cfg) req) g in
    let (rest, g2) := pick_many (Z.to_nat n - length req) (pool cfg) g1 in
    let (pw, g3) := shuffle (must ++ rest) [] g2 in
    (Ok (string_of_list_ascii pw), g3).

(** The contract, in the specification's words: the requested length, only
    allowed characters and none of the excluded ones, and a character of each
    required class. *)
Definition meets (cfg : PasswordGeneratorConfig) (pw : string) : Prop :=
  Z.of_nat (length (chars pw)) = PasswordGeneratorConfig.length cfg
  ∧ (∀ c, c ∈ chars pw → c ∈ alphabet ∧ c ∉ excluded cfg)
  ∧ (∀ cls, cls ∈ required cfg → ∃ c, c ∈ chars pw ∧ c ∈ class_chars cls).

Definition satisfiable (cfg : PasswordGeneratorConfig) : Prop :=
  ∃ pw, meets cfg pw.

(** The class a character belongs to. *)
Definition class_of (c : ascii) : option Class :=
  find (λ cls, bool_decide (c ∈ class_chars cls)) classes.

End Generator.

(** ** Further vocabulary for the component *)

(** The events the component handles without the host: typing, toggling
    dialogs, editing tags. *)
Definition local_event (ev : Event) : bool :=
  match ev with
  | ev_search_input _ | ev_show_add_form _ | ev_show_generator _
  | ev_form_input _ _ | ev_tag_enter _ | ev_tag_remove _
  | ev_generator_input _ | ev_close_decrypt_dialog => true
  | _ => false
  end.

(** An [add_password] call whose request has its four required fields filled
    and a tag list without duplicates or empty tags. *)
Definition sendable (c : Command) : Prop :=
  match c with
  | add_password request =>
      required_filled request = true
      ∧ tags_ok (PasswordCreateRequest.tags request)
  | _ => True
  end.

(** The arguments the component writes as literals: the storage target of
    [loadPasswords] and the key the view button passes. *)
Definition literal_arguments (c : Command) : Prop :=
  match c with
  | get_all_passwords_from_storage storageTarget => storageTarget = "local"
  | decrypt_password _ user_password => user_password = "your-key"
  | _ => True
  end.

(** A filled add form, for running the handlers. *)
Definition filled_form : PasswordCreateRequest :=
  PasswordCreateRequest.mk "Bank" "" ["money"] "me" "p@ss1" (Some "") "correct-key".

(** A list the host has returned: the password list of a resolved
    [get_all_passwords_from_storage] on [local], or the matches of a resolved
    [search_passwords]; or the empty list. *)
Definition from_host {W : Type} {host : Backend W} (l : list Password) : Prop :=
  l = []
  ∨ (∃ w d w', respond (get_all_passwords_from_storage "local") w = (inr d, w')
               ∧ l = StorageData.passwords d)
  ∨ (∃ query w results w', respond (search_passwords query) w = (inr results, w')
                           ∧ l = results).

Local Open Scope nat_scope.

(** * Properties of the front end *)

Section FrontEnd.
Context {W : Type} {host : Backend W}.

Implicit Types (s : Sys W Refs) (ts : list string) (tag : string).

(** *** Running the handlers *)

Lemma exec_bind {U A B} (m : M W U A) (k : A -> M W U B) (s : Sys W U) :
  exec (bind m k) s = exec (k (fst (m s))) (snd (m s)).
Proof. unfold exec, bind. by destruct (m s). Qed.

Lemma exec_loadPasswords s :
  exec loadPasswords s =
    match respond (get_all_passwords_from_storage "local") (world s) with
    | (inr d, w) =>
        mkSys (set_passwords (StorageData.passwords d) (refs s)) w
          (invoked s ++ [get_all_passwords_from_storage "local"]) (console s)
    | (inl e, w) =>
        mkSys (set_passwords []
                 (set_error ("加载密码失败: " +:+ Js.to_string e) (refs s))) w
          (invoked s ++ [get_all_passwords_from_storage "local"])
          (console s ++ [("加载密码错误:", e)])
    end.
Proof.
  unfold exec, loadPasswords, bind, invoke.
  destruct (respond _ _) as [[e|d] w]; reflexivity.
Qed.

(** *** Tags of the pending request *)

Lemma falsy_spec (x : string) : Js.falsy x = true ↔ x = "".
Proof. destruct x; simpl; split; congruence. Qed.

Lemma includes_spec ts tag : Js.includes ts tag = true ↔ tag ∈ ts.
Proof.
  unfold Js.includes. rewrite existsb_exists. split.
  - intros (y & Hy & Heq). apply String.eqb_eq in Heq. subst y.
    by apply list_elem_of_In.
  - intros Hin. exists tag. split; [by apply list_elem_of_In|].
    apply String.eqb_refl.
Qed.

Lemma indexOf_None ts tag : Js.indexOf ts tag = None ↔ tag ∉ ts.
Proof.
  induction ts as [|y ts IH]; simpl.
  - split; [intros _; apply not_elem_of_nil|done].
  - destruct (String.eqb_spec y tag) as [->|Hne].
    + split; [done|]. intros Hn. exfalso. apply Hn. left.
    + rewrite not_elem_of_cons. destruct (Js.indexOf ts tag) eqn:E.
      * split; [done|]. intros [_ Hn]. by apply IH in Hn.
      * split; [|done]. intros _. split; [congruence|]. by apply IH.
Qed.

Lemma indexOf_Some ts tag i :
  Js.indexOf ts tag = Some i →
  ∃ l1 l2, ts = l1 ++ (tag :: l2) ∧ (tag ∉ l1) ∧ length l1 = i.
Proof.
  revert i. induction ts as [|y ts IH]; simpl; intros i; [done|].
  destruct (String.eqb_spec y tag) as [->|Hne].
  - intros [= <-]. exists [], ts. split_and!; [done|apply not_elem_of_nil|done].
  - destruct (Js.indexOf ts tag) as [j|] eqn:E; [|done].
    intros [= <-]. destruct (IH j eq_refl) as (l1 & l2 & -> & Hn & Hlen).
    exists (y :: l1), l2. split_and!; [done| |by simpl; f_equal].
    rewrite not_elem_of_cons. split; congruence.
Qed.

Lemma splice1_middle {A} (l1 l2 : list A) (x : A) :
  Js.splice1 (length l1) (l1 ++ (x :: l2)) = l1 ++ l2.
Proof.
  unfold Js.splice1. rewrite take_app_length.
  replace (S (length l1)) with (length (l1 ++ [x])) by (rewrite length_app; simpl; lia).
  replace (l1 ++ (x :: l2)) with ((l1 ++ [x]) ++ l2) by (by rewrite <- app_assoc).
  by rewrite drop_app_length.
Qed.

Lemma addTag_list_spec tag ts :
  addTag_list tag ts = if decide (tag ≠ "" ∧ tag ∉ ts) then ts ++ [tag] else ts.
Proof.
  unfold addTag_list.
  destruct (Js.falsy tag) eqn:Hf; simpl.
  - apply falsy_spec in Hf. case_decide as Hd; [by destruct Hd|done].
  - destruct (Js.includes ts tag) eqn:Hi; simpl.
    + apply includes_spec in Hi. case_decide as Hd; [by destruct Hd|done].
    + case_decide as Hd; [done|]. exfalso. apply Hd. split.
      * intros ->. done.
      * intros Hin. apply includes_spec in Hin. congruence.
Qed.

Lemma addTag_list_idem tag ts :
  addTag_list tag (addTag_list tag ts) = addTag_list tag ts.
Proof.
  rewrite (addTag_list_spec tag ts).
  destruct (decide (tag ≠ "" ∧ tag ∉ ts)) as [Hd|Hd].
  - rewrite addTag_list_spec, decide_False; [done|]. intros [_ Hn]. apply Hn.
    apply elem_of_app. right. left.
  - by rewrite addTag_list_spec, decide_False.
Qed.

Lemma removeTag_list_present tag ts :
  tag ∈ ts →
  ∃ l1 l2, ts = l1 ++ (tag :: l2) ∧ (tag ∉ l1) ∧ removeTag_list tag ts = l1 ++ l2.
Proof.
  intros Hin. unfold removeTag_list.
  destruct (Js.indexOf ts tag) as [i|] eqn:E.
  - destruct (indexOf_Some _ _ _ E) as (l1 & l2 & -> & Hn & <-).
    exists l1, l2. split_and!; [done|done|apply splice1_middle].
  - apply indexOf_None in E. done.
Qed.

Lemma removeTag_list_absent tag ts : tag ∉ ts → removeTag_list tag ts = ts.
Proof.
  intros Hn. unfold removeTag_list. apply indexOf_None in Hn. by rewrite Hn.
Qed.

Lemma addTag_list_ok tag ts : tags_ok ts → tags_ok (addTag_list tag ts).
Proof.
  intros [Hnd Hne]. rewrite addTag_list_spec. case_decide as Hd; [|done].
  destruct Hd as [Htag Hnin]. split.
  - apply NoDup_app. split_and!; [done| |apply NoDup_singleton].
    intros x Hx Hx'. apply list_elem_of_singleton in Hx'. by subst.
  - rewrite elem_of_app, list_elem_of_singleton. intros [?|?]; congruence.
Qed.

Lemma removeTag_list_ok tag ts : tags_ok ts → tags_ok (removeTag_list tag ts).
Proof.
  intros [Hnd Hne]. destruct (decide (tag ∈ ts)) as [Hin|Hn].
  - destruct (removeTag_list_present _ _ Hin) as (l1 & l2 & -> & _ & ->).
    split.
    + apply NoDup_app in Hnd as (H1 & H2 & H3). apply NoDup_cons in H3 as [_ H3].
      apply NoDup_app. split_and!; [done| |done].
      intros x Hx Hx'. apply (H2 x Hx). by right.
    + intros Hin'. apply Hne. apply elem_of_app in Hin' as [?|?];
        apply elem_of_app; [by left|right; by right].
  - by rewrite removeTag_list_absent.
Qed.

(** Unfold a handler down to the host's answers and case on each of them. *)
Ltac unfold_handler :=
  unfold exec, dispatch, on_emits, on_emit, SearchBar.handleInput,
    SearchBar.handleSearch, SearchBar.clearSearch, initializeApp, handleSearch,
    addPassword, deletePassword, decryptPasswordFunc, generatePassword,
    resetForm, loadPasswords, addTag, removeTag, on_tags, addLog, bind, invoke,
    console_error, modify, get, ret.

Ltac case_answers :=
  repeat (simpl;
    match goal with
    | |- context [respond ?c ?w] => destruct (respond c w) as [[?|?] ?]
    | |- context [if ?b then _ else _] => destruct b
    | |- context [match find ?f ?l with _ => _ end] => destruct (find f l)
    end); simpl.

Lemma dispatch_tags ev s :
  tags_of (exec (dispatch ev) s) = tags_of s
  ∨ tags_of (exec (dispatch ev) s) = []
  ∨ (∃ tag, tags_of (exec (dispatch ev) s) = addTag_list tag (tags_of s))
  ∨ (∃ tag, tags_of (exec (dispatch ev) s) = removeTag_list tag (tags_of s)).
Proof.
  destruct ev; unfold tags_of;
    try (unfold_handler; case_answers; auto; fail).
  - (* a form input never writes [tags] *)
    left. unfold exec, dispatch, modify; simpl.
    destruct (newPassword (refs s)); by destruct f.
  - right; right; left. by exists value.
  - right; right; right. by exists tag.
Qed.

Lemma run_cons ev evs s :
  exec (run (ev :: evs)) s = exec (run evs) (exec (dispatch ev) s).
Proof. simpl. by rewrite exec_bind. Qed.

Lemma run_tags_ok evs s : tags_ok (tags_of s) → tags_ok (tags_of (exec (run evs) s)).
Proof.
  revert s. induction evs as [|ev evs IH]; intros s Hok; [done|].
  rewrite run_cons. apply IH.
  destruct (dispatch_tags ev s) as [->|[->|[[tag ->]|[tag ->]]]].
  - done.
  - split; [apply NoDup_nil_2|apply not_elem_of_nil].
  - by apply addTag_list_ok.
  - by apply removeTag_list_ok.
Qed.

(** *** Which commands the component invokes *)

Ltac on_surface_tac :=
  repeat match goal with
  | |- Forall _ (_ ++ _) => apply Forall_app; split
  | |- Forall _ [] => apply Forall_nil_2
  | |- Forall _ (_ :: _) => apply Forall_cons; split
  | |- on_surface _ => unfold on_surface, command_surface; simpl;
                        repeat constructor
  end; try assumption.

Lemma dispatch_on_surface ev s :
  Forall on_surface (invoked s) →
  Forall on_surface (invoked (exec (dispatch ev) s)).
Proof.
  intros Hs. destruct ev; unfold_handler; case_answers; on_surface_tac.
Qed.

Lemma run_on_surface evs s :
  Forall on_surface (invoked s) →
  Forall on_surface (invoked (exec (run evs) s)).
Proof.
  revert s. induction evs as [|ev evs IH]; intros s Hs; [done|].
  rewrite run_cons. by apply IH, dispatch_on_surface.
Qed.

(** *** The add form *)

Lemma required_filled_spec np :
  required_filled np = true ↔
  PasswordCreateRequest.title np ≠ "" ∧ PasswordCreateRequest.username np ≠ ""
  ∧ PasswordCreateRequest.password np ≠ "" ∧ PasswordCreateRequest.key np ≠ "".
Proof.
  unfold required_filled. rewrite !andb_true_iff, !negb_true_iff.
  assert (Hf : ∀ x, Js.falsy x = false ↔ x ≠ "") by (by intros []).
  rewrite !Hf. tauto.
Qed.

Lemma addPassword_dispatches s :
  required_filled (newPassword (refs s)) = true →
  ∃ rest,
    invoked (exec addPassword s)
      = invoked s ++ add_password (newPassword (refs s)) :: rest
    ∧ (rest = [] ∨ rest = [get_all_passwords_from_storage "local"]).
Proof.
  unfold required_filled. intros Hreq.
  apply andb_true_iff in Hreq as [Hreq H4].
  apply andb_true_iff in Hreq as [Hreq H3].
  apply andb_true_iff in Hreq as [H1 H2].
  apply negb_true_iff in H1, H2, H3, H4.
  unfold exec, addPassword, bind, get. simpl. rewrite H1, H2, H3, H4. simpl.
  unfold_handler. case_answers.
  - exists []. by split; [|left].
  - exists [get_all_passwords_from_storage "local"].
    split; [by rewrite <- app_assoc|by right].
  - exists [get_all_passwords_from_storage "local"].
    split; [by rewrite <- app_assoc|by right].
Qed.

Lemma addPassword_refuses s :
  required_filled (newPassword (refs s)) = false →
  invoked (exec addPassword s) = invoked s
  ∧ world (exec addPassword s) = world s
  ∧ error (refs (exec addPassword s)) = "请填写所有必填字段"
  ∧ last (logMessages (refs (exec addPassword s)))
      = Some "添加密码失败: 缺少必填字段".
Proof.
  unfold required_filled. intros Hreq.
  unfold exec, addPassword, bind, get. simpl.
  destruct (Js.falsy (PasswordCreateRequest.title _)),
    (Js.falsy (PasswordCreateRequest.username _)),
    (Js.falsy (PasswordCreateRequest.password _)),
    (Js.falsy (PasswordCreateRequest.key _)); try discriminate Hreq; simpl;
    (split_and!; [done|done|done|apply last_snoc]).
Qed.

(** *** The claims about the component *)

(** C10: in every state the component can reach, the pending request's tag
    list has no duplicates and does not hold the empty string; [addTag]
    appends a tag exactly when it is non-empty and not yet present, so adding
    a present tag changes nothing and adding twice is adding once;
    [removeTag] takes out the one occurrence of a present tag and leaves the
    list alone when the tag is absent. *)
Theorem C10_tag_list_invariant (w : W) (evs : list Event) (tag : string) :
  let s := exec (run evs) (boot w) in
  let ts := tags_of s in
  NoDup ts
  ∧ ("" ∉ ts)
  ∧ tags_of (exec (addTag tag) s)
      = (if decide (tag ≠ "" ∧ tag ∉ ts) then ts ++ [tag] else ts)
  ∧ (tag ∈ ts → tags_of (exec (addTag tag) s) = ts)
  ∧ tags_of (exec (addTag tag) (exec (addTag tag) s))
      = tags_of (exec (addTag tag) s)
  ∧ (tag ∈ ts →
       ∃ l1 l2, ts = l1 ++ (tag :: l2) ∧ (tag ∉ l1 ++ l2)
                ∧ tags_of (exec (removeTag tag) s) = l1 ++ l2)
  ∧ (tag ∉ ts → tags_of (exec (removeTag tag) s) = ts).
Proof.
  intros s ts.
  assert (Hok : tags_ok ts).
  { apply run_tags_ok. split; [apply NoDup_nil_2|apply not_elem_of_nil]. }
  destruct Hok as [Hnd Hne].
  assert (Hadd : ∀ s0, tags_of (exec (addTag tag) s0) = addTag_list tag (tags_of s0))
    by done.
  assert (Hrem : ∀ s0, tags_of (exec (removeTag tag) s0) = removeTag_list tag (tags_of s0))
    by done.
  split_and!; [done|done| | | | |].
  - rewrite Hadd. apply addTag_list_spec.
  - intros Hin. rewrite Hadd, addTag_list_spec. fold ts.
    rewrite decide_False; [done|]. by intros [_ ?].
  - rewrite !Hadd. apply addTag_list_idem.
  - intros Hin. rewrite Hrem. fold ts.
    destruct (removeTag_list_present _ _ Hin) as (l1 & l2 & Hts & Hn1 & ->).
    exists l1, l2. split_and!; [done| |done].
    rewrite Hts in Hnd. apply NoDup_app in Hnd as (_ & Hdis & Hnd2).
    apply NoDup_cons in Hnd2 as [Hn2 _].
    rewrite elem_of_app. by intros [?|?].
  - intros Hn. rewrite Hrem. by apply removeTag_list_absent.
Qed.

(** C9: when the [get_all_passwords_from_storage] call of [loadPasswords]
    rejects, the displayed list becomes the empty list, whatever it held
    before, and an error message is recorded. *)
Theorem C9_failed_load_empties_list s (e : Js.Thrown) (w' : W) :
  respond (get_all_passwords_from_storage "local") (world s) = (inl e, w') →
  passwords (refs (exec loadPasswords s)) = []
  ∧ error (refs (exec loadPasswords s)) = "加载密码失败: " +:+ Js.to_string e
  ∧ error (refs (exec loadPasswords s)) ≠ "".
Proof.
  intros Hrej. rewrite exec_loadPasswords, Hrej. simpl. done.
Qed.

(** C8: a query that trims to the empty string makes [handleSearch] invoke
    [get_all_passwords_from_storage] for the local backend, and nothing else
    (no [search_passwords]); when that call resolves, the displayed list is
    the returned document's password list.  Any other query makes it invoke
    [search_passwords] with the query, and nothing else; when that call
    resolves, the displayed list is the returned matches.  Enter in the
    search bar runs [handleSearch] on the bar's text, and its clear button runs
    it on the empty string. *)
Theorem C8_handleSearch_routes_by_blankness s (query : string) :
  let s' := exec (handleSearch query) s in
  searchQuery (refs s') = query
  ∧ exec (dispatch ev_search_enter) s = exec (handleSearch (searchQuery (refs s))) s
  ∧ exec (dispatch ev_search_clear) s = exec (handleSearch "") s
  ∧ (Js.trim query = "" →
       invoked s' = invoked s ++ [get_all_passwords_from_storage "local"]
       ∧ ∀ d w', respond (get_all_passwords_from_storage "local") (world s)
                   = (inr d, w') →
                 passwords (refs s') = StorageData.passwords d)
  ∧ (Js.trim query ≠ "" →
       invoked s' = invoked s ++ [search_passwords query]
       ∧ ∀ results w', respond (search_passwords query) (world s)
                         = (inr results, w') →
                       passwords (refs s') = results).
Proof.
  assert (Henter : exec (dispatch ev_search_enter) s
                   = exec (handleSearch (searchQuery (refs s))) s).
  { unfold dispatch, SearchBar.handleSearch, on_emits, on_emit, exec, bind, get, ret.
    simpl. by destruct (handleSearch _ s) as [[] ?]. }
  assert (Hclear : exec (dispatch ev_search_clear) s = exec (handleSearch "") s).
  { unfold_handler. by case_answers. }
  unfold handleSearch. simpl. rewrite exec_bind. simpl.
  destruct (Js.falsy (Js.trim query)) eqn:Hblank.
  - apply falsy_spec in Hblank. rewrite exec_loadPasswords. simpl.
    split_and!; [|done|done| |done].
    + by destruct (respond _ _) as [[?|?] ?].
    + intros _. split.
      * by destruct (respond _ _) as [[?|?] ?].
      * intros d w' ->. done.
  - assert (Js.trim query ≠ "") by (intros Heq; by rewrite Heq in Hblank).
    unfold_handler. simpl. split_and!; [|done|done|done|].
    + by destruct (respond _ _) as [[?|?] ?].
    + intros _. split.
      * by destruct (respond _ _) as [[?|?] ?].
      * intros results w' ->. done.
Qed.

(** C6, as amended: every command the password-manager component invokes,
    along any sequence of user actions, is named on the command surface. *)
Theorem C6_component_commands_on_surface (w : W) (evs : list Event) :
  Forall (λ c, command_name c ∈ command_surface)
    (invoked (exec (run evs) (boot w))).
Proof. apply run_on_surface. apply Forall_nil_2. Qed.

End FrontEnd.

(** C9 at a host that is down, with one password on display. *)
Lemma C9_failed_load_empties_list_witness :
  passwords
    (refs (exec (loadPasswords (host := Hosts.offline))
             (mkSys (set_passwords [Hosts.stored "Bank"] initialRefs) tt [] [])))
  = [].
Proof.
  refine (proj1 (C9_failed_load_empties_list (host := Hosts.offline)
                   (mkSys (set_passwords [Hosts.stored "Bank"] initialRefs) tt [] [])
                   (Js.ThrownString "offline") tt _)).
  reflexivity.
Defined.

(** C6, counterexample: [greet] of the scaffold component invokes [greet] and
    [fetch_data], which the command surface does not list. *)
Lemma C6_greet_off_surface :
  invoked (exec (App.greet (host := Hosts.memory)) (App.boot []))
    = [greet ""; fetch_data]
  ∧ ¬ Forall (λ c, command_name c ∈ command_surface)
        (invoked (exec (App.greet (host := Hosts.memory)) (App.boot []))).
Proof.
  split; [reflexivity|].
  intros Hall. apply Forall_cons in Hall as [Hin _].
  simpl in Hin. unfold command_surface in Hin.
  repeat (apply elem_of_cons in Hin as [Hin|Hin]; [discriminate Hin|]).
  by apply elem_of_nil in Hin.
Qed.

(** * Documents at the boundary *)

(** *** What the declared interfaces ask of a document *)

Lemma conforms_EncryptedData_member (name : string) (members : list (string * Json.t)) :
  match Json.lookup name members with
  | Some v => Ts.conforms Ts.EncryptedData v
  | None => false
  end = true →
  ∃ secret, Json.lookup name members = Some secret
            ∧ Ts.conforms Ts.EncryptedData secret = true.
Proof. destruct (Json.lookup name members) as [v|]; [by exists v|done]. Qed.

Lemma conforms_Password (p : Json.t) :
  Ts.conforms Ts.Password p = true →
  ∃ i secret, Json.get "id" p = Some (Json.str i)
              ∧ Json.get "encrypted_password" p = Some secret
              ∧ Ts.conforms Ts.EncryptedData secret = true.
Proof.
  destruct p as [| | | | |members]; try done.
  unfold Ts.Password. cbn [Ts.conforms forallb Ts.required Ts.optional fst snd].
  rewrite !andb_true_iff. intros (Hid & _ & _ & _ & _ & Hsecret & _).
  apply conforms_EncryptedData_member in Hsecret as (secret & Hlook & Hsecret).
  simpl. destruct (Json.lookup "id" members) as [[| | |i| |]|]; try done.
  by exists i, secret.
Qed.

Lemma conforms_StorageMetadata (meta : Json.t) :
  Ts.conforms Ts.StorageMetadata meta = true →
  ∃ v l n, Json.get "version" meta = Some (Json.str v)
           ∧ Json.get "last_sync" meta = Some (Json.str l)
           ∧ Json.get "password_count" meta = Some (Json.num n).
Proof.
  destruct meta as [| | | | |members]; try done. simpl.
  destruct (Json.lookup "version" members) as [[| | |v| |]|]; try done.
  destruct (Json.lookup "last_sync" members) as [[| | |l| |]|]; try done.
  destruct (Json.lookup "password_count" members) as [[| |n| | |]|]; try done.
  intros _. by exists v, l, n.
Qed.

Lemma conforms_StorageData (doc : Json.t) :
  Ts.conforms Ts.StorageData doc = true →
  ∃ meta ps, Json.get "metadata" doc = Some meta
             ∧ Ts.conforms Ts.StorageMetadata meta = true
             ∧ Json.get "passwords" doc = Some (Json.arr ps)
             ∧ Forall (λ p, Ts.conforms Ts.Password p = true) ps.
Proof.
  destruct doc as [| | | | |members]; try done.
  unfold Ts.StorageData. cbn [Ts.conforms forallb Ts.required fst snd].
  rewrite !andb_true_iff. intros (Hmeta & Hlist & _). simpl.
  destruct (Json.lookup "metadata" members) as [meta|]; [|done].
  destruct (Json.lookup "passwords" members) as [[| | | |ps|]|]; try done.
  exists meta, ps. split_and!; [done|done|done|].
  apply Forall_forall. intros p Hp. cbn [Ts.conforms] in Hlist.
  rewrite forallb_forall in Hlist. by apply Hlist, list_elem_of_In.
Qed.

(** *** What the handlers read *)

Section UntypedHandlers.
Context {W : Type} {host : Untyped.Host W}.

Lemma find_id_truthy (id : string) (items : list Json.t) (p : Json.t) :
  Untyped.find_id id items = inr (Some p) → Untyped.truthy (Some p) = true.
Proof.
  induction items as [|q items IH]; simpl; [done|].
  destruct q as [|b|n|t|l|members]; simpl; try done.
  destruct (Untyped.strict_equal (Json.lookup "id" members) id); [|done].
  by intros [= <-].
Qed.

(** C5, as amended: the front end takes a snapshot by the names of its own
    declarations.  A document of the declared [StorageData] type has a
    [metadata] object carrying [version], [last_sync] and [password_count],
    and under [passwords] the sequence of passwords, each with its encrypted
    secret under [encrypted_password]; of the document that
    [get_all_passwords_from_storage] returns, [loadPasswords] displays the
    value under [passwords], whatever else the document holds; and for a
    displayed entry [decryptPasswordFunc] sends the value under
    [encrypted_password]. *)
Theorem C5_snapshot_taken_by_declared_names (s : Untyped.Sys W) (doc : Json.t) :
  (Ts.conforms Ts.StorageData doc = true →
     StorageData_shape doc = true
     ∧ ∃ meta ps v l n,
         Json.get "metadata" doc = Some meta
         ∧ Json.get "version" meta = Some (Json.str v)
         ∧ Json.get "last_sync" meta = Some (Json.str l)
         ∧ Json.get "password_count" meta = Some (Json.num n)
         ∧ Json.get "passwords" doc = Some (Json.arr ps)
         ∧ Forall (λ p, ∃ secret,
                     Json.get "encrypted_password" p = Some secret
                     ∧ Ts.conforms Ts.EncryptedData secret = true) ps)
  ∧ (∀ w', Untyped.answer Untyped.load_call (Untyped.world s) = (inr doc, w') →
           doc ≠ Json.null →
           Untyped.passwords (Untyped.refs (Untyped.loadPasswords s))
             = Json.get "passwords" doc
           ∧ Untyped.error (Untyped.refs (Untyped.loadPasswords s))
               = Untyped.error (Untyped.refs s)
           ∧ Untyped.invoked (Untyped.loadPasswords s)
               = Untyped.invoked s ++ [Untyped.load_call])
  ∧ (∀ items p id key,
       Untyped.passwords (Untyped.refs s) = Some (Json.arr items) →
       Untyped.find_id id items = inr (Some p) →
       Untyped.invoked (Untyped.decryptPasswordFunc id key s)
         = Untyped.invoked s
           ++ [Untyped.decrypt_call (Json.get "encrypted_password" p) key]).
Proof.
  split_and!.
  - intros Hdoc.
    apply conforms_StorageData in Hdoc as (meta & ps & Hmeta & Hm & Hlist & Hps).
    pose proof (conforms_StorageMetadata meta Hm) as (v & l & n & Hv & Hl & Hn).
    assert (Hsecrets : Forall (λ p, ∃ secret,
                         Json.get "encrypted_password" p = Some secret
                         ∧ Ts.conforms Ts.EncryptedData secret = true) ps).
    { eapply Forall_impl; [exact Hps|]. intros p Hp.
      apply conforms_Password in Hp as (i & secret & _ & Hs & Hc). by exists secret. }
    split.
    + unfold StorageData_shape, snapshot_shape. rewrite Hmeta, Hlist.
      unfold Json.has. rewrite Hv, Hl, Hn. simpl.
      apply forallb_forall. intros p Hp. apply list_elem_of_In in Hp.
      rewrite Forall_forall in Hsecrets.
      destruct (Hsecrets p Hp) as (secret & -> & _). done.
    + by exists meta, ps, v, l, n.
  - intros w' Hans Hnull. unfold Untyped.loadPasswords. rewrite Hans.
    destruct doc; simpl; done.
  - intros items p id key Hlist Hfind.
    assert (Hp : Untyped.member "encrypted_password" (Some p)
                 = inr (Json.get "encrypted_password" p)).
    { pose proof (find_id_truthy id items p Hfind) as Ht.
      by destruct p. }
    unfold Untyped.decryptPasswordFunc, Untyped.find_password.
    rewrite Hlist, Hfind, (find_id_truthy id items p Hfind). cbn [negb].
    rewrite Hp.
    destruct (Untyped.answer _ (Untyped.world s)) as [[e|decrypted] w1]; done.
Qed.

End UntypedHandlers.

(** C5, counterexample: a snapshot named by the front end's declarations is
    of the declared type and is displayed whole, yet is not of the
    specification's [StorageSnapshot] shape; the same snapshot named by the
    specification is of that shape, is not of the declared type, and is not
    taken: [loadPasswords] displays [undefined] for it, and an entry that
    holds its secret under [encrypted_secret] has [undefined] sent for
    decryption. *)
Lemma C5_StorageSnapshot_names_not_taken :
  let by_code := Untyped.snapshot_document "password_count" "passwords" "encrypted_password" in
  let by_spec := Untyped.snapshot_document "entry_count" "entries" "encrypted_secret" in
  let shown doc :=
    Untyped.passwords
      (Untyped.refs (Untyped.loadPasswords (host := Untyped.serving doc)
                       (Untyped.boot tt))) in
  Ts.conforms Ts.StorageData by_code = true
  ∧ shown by_code = Json.get "passwords" by_code
  ∧ (∃ entry, shown by_code = Some (Json.arr [entry]))
  ∧ StorageSnapshot_shape by_code = false
  ∧ StorageSnapshot_shape by_spec = true
  ∧ Ts.conforms Ts.StorageData by_spec = false
  ∧ shown by_spec = None
  ∧ Untyped.invoked
      (Untyped.decryptPasswordFunc (host := Untyped.serving by_spec) "X" "your-key"
         (Untyped.mkSys
            (Untyped.mkRefs (Json.get "entries" by_spec) "" false
               (Untyped.decryptPassword Untyped.initialRefs))
            tt [] []))
    = [Untyped.decrypt_call None "your-key"].
Proof. split_and!; try reflexivity. by eexists. Qed.

(** * AES-256-GCM *)

(** *** Block and key-stream lengths *)

Lemma xor_bytes_word a b : Aes.word_ok a → Aes.word_ok b → Aes.word_ok (Aes.xor_bytes a b).
Proof.
  unfold Aes.word_ok, Aes.xor_bytes. intros Ha Hb.
  rewrite length_zip_with. lia.
Qed.

Lemma word_at_ok ws i : Forall Aes.word_ok ws → Aes.word_ok (Aes.word_at ws i).
Proof.
  intros Hws. unfold Aes.word_at.
  destruct (nth_in_or_default i ws [0%N; 0%N; 0%N; 0%N]) as [Hin| ->]; [|done].
  rewrite Forall_forall in Hws. by apply Hws, list_elem_of_In.
Qed.

Lemma sub_word_ok w : Aes.word_ok w → Aes.word_ok (Aes.sub_word w).
Proof. unfold Aes.word_ok, Aes.sub_word. by rewrite length_map. Qed.

Lemma rot_word_ok w : Aes.word_ok w → Aes.word_ok (Aes.rot_word w).
Proof.
  unfold Aes.word_ok. destruct w as [|a w]; simpl; [done|].
  rewrite length_app. simpl. lia.
Qed.

Lemma expand_loop_ok n i rcon ws :
  Forall Aes.word_ok ws →
  Forall Aes.word_ok (Aes.expand_loop n i rcon ws)
  ∧ length (Aes.expand_loop n i rcon ws) = length ws + n.
Proof.
  revert i rcon ws. induction n as [|n IH]; intros i rcon ws Hws.
  - simpl. split; [done|lia].
  - cbn [Aes.expand_loop].
    assert (Ht : Aes.word_ok (Aes.word_at ws (i - 1))) by by apply word_at_ok.
    assert (H8 : Aes.word_ok (Aes.word_at ws (i - 8))) by by apply word_at_ok.
    match goal with
    | |- context [let '(_, _) := ?p in _] =>
        assert (Hp : Aes.word_ok (fst p));
        [|destruct p as [temp' rcon']; simpl in Hp]
    end.
    { destruct (Nat.eqb (i mod 8) 0); [|destruct (Nat.eqb (i mod 8) 4)]; simpl.
      - apply xor_bytes_word; [|done]. by apply sub_word_ok, rot_word_ok.
      - by apply sub_word_ok.
      - done. }
    destruct (IH (S i) rcon' (ws ++ [Aes.xor_bytes (Aes.word_at ws (i - 8)) temp']))
      as [IH1 IH2].
    + apply Forall_app. split; [done|]. apply Forall_singleton.
      by apply xor_bytes_word.
    + split; [done|]. rewrite IH2, length_app. simpl. lia.
Qed.

Lemma words_of_ok n bs :
  Forall Aes.word_ok (Aes.words_of n bs) ∧ length (Aes.words_of n bs) = n.
Proof.
  revert bs. induction n as [|n IH]; intros bs; [done|].
  cbn [Aes.words_of]. destruct (IH (drop 4 bs)) as [IH1 IH2].
  split; [|by rewrite length_cons, IH2].
  apply Forall_cons. split; [|done].
  unfold Aes.word_ok. rewrite length_take, length_app.
  change (length [0%N; 0%N; 0%N; 0%N]) with 4. lia.
Qed.

Lemma key_expansion_ok key :
  Forall Aes.word_ok (Aes.key_expansion key) ∧ length (Aes.key_expansion key) = 60.
Proof.
  unfold Aes.key_expansion.
  destruct (words_of_ok 8 key) as [H1 H2].
  destruct (expand_loop_ok 52 8 1 _ H1) as [H3 H4].
  split; [done|]. by rewrite H4, H2.
Qed.

Lemma concat_words_length ws :
  Forall Aes.word_ok ws → length (concat ws) = 4 * length ws.
Proof.
  induction 1 as [|w ws Hw _ IH]; simpl; [done|].
  rewrite length_app, IH, Hw. lia.
Qed.

Lemma round_key_length key r :
  r ≤ 14 → length (Aes.round_key (Aes.key_expansion key) r) = 16.
Proof.
  intros Hr. destruct (key_expansion_ok key) as [Hws Hlen].
  unfold Aes.round_key. rewrite concat_words_length.
  - rewrite length_take, length_drop, Hlen. lia.
  - by apply Forall_take, Forall_drop.
Qed.

Lemma encrypt_block_length key block :
  length (Aes.encrypt_block key block) = 16.
Proof.
  unfold Aes.encrypt_block, Aes.xor_bytes at 1.
  rewrite length_zip_with, round_key_length by lia.
  unfold Aes.shift_rows. rewrite length_map, length_seq. done.
Qed.

Lemma cipher_length key block : length (Gcm.cipher key block) = 16.
Proof.
  unfold Gcm.cipher, Bytes.of_Ns. by rewrite length_map, encrypt_block_length.
Qed.

Lemma concat_blocks_length {A} (f : nat → list byte) (l : list A) (g : A → nat) :
  (∀ j, length (f j) = 16) → length (concat (map (λ x, f (g x)) l)) = 16 * length l.
Proof.
  intros Hf. induction l as [|x l IH]; simpl; [done|].
  rewrite length_app, Hf, IH. lia.
Qed.

Lemma keystream_length key nonce len :
  length (Gcm.keystream key nonce len) = len.
Proof.
  unfold Gcm.keystream. rewrite length_take.
  rewrite (concat_blocks_length
             (λ j, Gcm.cipher key (Gcm.counter_block nonce (2 + N.of_nat j))) _ id)
    by (intros j; apply cipher_length).
  rewrite length_seq.
  pose proof (Nat.div_mod_eq (len + 15) 16) as Hd.
  pose proof (Nat.mod_upper_bound (len + 15) 16) as Hm. lia.
Qed.

Lemma tag_length key nonce ct : length (Gcm.tag key nonce ct) = Gcm.tag_length.
Proof.
  unfold Gcm.tag, Bytes.xor, Bytes.N_to_be.
  rewrite length_zip_with, cipher_length, length_map, length_seq. done.
Qed.

(** *** Sealing and opening *)

Lemma xor_byte_involutive a b : Bytes.xor_byte (Bytes.xor_byte a b) b = a.
Proof.
  unfold Bytes.xor_byte. rewrite Byte.to_bits_of_bits.
  rewrite <- (Byte.of_bits_to_bits a) at 2. f_equal.
  destruct (Byte.to_bits a) as (a0 & a1 & a2 & a3 & a4 & a5 & a6 & a7).
  destruct (Byte.to_bits b) as (b0 & b1 & b2 & b3 & b4 & b5 & b6 & b7).
  simpl. by rewrite !xorb_assoc, !xorb_nilpotent, !xorb_false_r.
Qed.

Lemma xor_involutive (p ks : list byte) :
  length p ≤ length ks → Bytes.xor (Bytes.xor p ks) ks = p.
Proof.
  revert ks. induction p as [|a p IH]; intros [|k ks] Hlen; simpl in *;
    [done|done|lia|].
  rewrite xor_byte_involutive, IH; [done|lia].
Qed.

Lemma xor_length (p ks : list byte) :
  length p ≤ length ks → length (Bytes.xor p ks) = length p.
Proof. intros Hlen. unfold Bytes.xor. rewrite length_zip_with. lia. Qed.

Lemma bytes_eqb_refl (a : list byte) : Bytes.eqb a a = true.
Proof.
  induction a as [|x a IH]; simpl; [done|].
  by rewrite (Byte.byte_dec_lb eq_refl), IH.
Qed.

Lemma seal_length key nonce p :
  length (Gcm.seal key nonce p) = length p + Gcm.tag_length.
Proof.
  unfold Gcm.seal. rewrite length_app, tag_length, xor_length; [done|].
  by rewrite keystream_length.
Qed.

Lemma open_seal key nonce p :
  Gcm.open key nonce (Gcm.seal key nonce p) = Some p.
Proof.
  unfold Gcm.open. rewrite seal_length.
  replace (length p + Gcm.tag_length - Gcm.tag_length) with (length p) by lia.
  unfold Gcm.seal.
  set (ct := Bytes.xor p (Gcm.keystream key nonce (length p))).
  assert (Hct : length ct = length p)
    by (apply xor_length; by rewrite keystream_length).
  assert (Htake : ∀ t, take (length p) (ct ++ t) = ct)
    by (intros t; rewrite <- Hct; apply take_app_length).
  assert (Hdrop : ∀ t, drop (length p) (ct ++ t) = t)
    by (intros t; rewrite <- Hct; apply drop_app_length).
  rewrite Hdrop, Htake, bytes_eqb_refl. f_equal.
  subst ct. apply xor_involutive. by rewrite keystream_length.
Qed.

(** *** CryptoService *)

Lemma random_bytes_length n g : length (fst (Core.random_bytes n g)) = n.
Proof. unfold Core.random_bytes. simpl. by rewrite length_map, length_seq. Qed.

Lemma encrypt_well_formed key p g :
  Core.well_formed (fst (Core.encrypt key p g)) = true.
Proof.
  unfold Core.encrypt.
  pose proof (random_bytes_length Gcm.nonce_length g) as Hn.
  destruct (Core.random_bytes Gcm.nonce_length g) as [nonce g'].
  unfold Core.well_formed. cbn [fst Core.EncryptedData.nonce Core.EncryptedData.ciphertext] in *.
  rewrite Hn, seal_length, Nat.eqb_refl. apply Nat.leb_le. lia.
Qed.

(** C1: whatever the plaintext bytes and the random source, decrypting under
    a valid master key what [encrypt] produced under that key gives back
    exactly the plaintext. *)
Theorem C1_decrypt_encrypt_round_trip
    (k : Core.MasterKey) (p : list byte) (g : Core.Rng) :
  Core.MasterKey.valid k →
  Core.decrypt k (fst (Core.encrypt k p g)) = Core.Ok p.
Proof.
  intros _. unfold Core.decrypt. rewrite encrypt_well_formed.
  unfold Core.encrypt.
  destruct (Core.random_bytes Gcm.nonce_length g) as [nonce g'].
  cbn [negb fst Core.EncryptedData.nonce Core.EncryptedData.ciphertext].
  by rewrite open_seal.
Qed.

(** C1 at an all-zero key, the plaintext [p@ss1] and a fixed random source. *)
Lemma C1_decrypt_encrypt_round_trip_witness :
  let k := Core.MasterKey.mk (Bytes.zeros 32) (Bytes.zeros 16) in
  let p := [Byte.x70; Byte.x40; Byte.x73; Byte.x73; Byte.x31] in
  let g := Core.mkRng (λ i, Bytes.byte_of_N (N.of_nat (7 * i + 3))) 0 in
  Core.MasterKey.valid k ∧ Core.decrypt k (fst (Core.encrypt k p g)) = Core.Ok p.
Proof.
  split; [reflexivity|].
  apply (C1_decrypt_encrypt_round_trip
           (Core.MasterKey.mk (Bytes.zeros 32) (Bytes.zeros 16))
           [Byte.x70; Byte.x40; Byte.x73; Byte.x73; Byte.x31]
           (Core.mkRng (λ i, Bytes.byte_of_N (N.of_nat (7 * i + 3))) 0)).
  reflexivity.
Defined.

(** * PasswordManager *)

Section Manager.
Import Core.

Implicit Types (e x a b : Entry) (acc es : list Entry).

Lemma same_id_true e x : same_id e x = true ↔ Entry.id x = Entry.id e.
Proof. unfold same_id. apply String.eqb_eq. Qed.

Lemma same_id_false e x : same_id e x = false ↔ Entry.id x ≠ Entry.id e.
Proof. unfold same_id. apply String.eqb_neq. Qed.

Lemma overwrite_ids e acc :
  ids (map (λ x, if same_id e x then e else x) acc) = ids acc.
Proof.
  unfold ids. induction acc as [|x acc IH]; simpl; [done|].
  rewrite IH. f_equal. destruct (same_id e x) eqn:E; [|done].
  symmetry. by apply same_id_true.
Qed.

Lemma overwrite_keeps e x acc :
  x ∈ acc → Entry.id x ≠ Entry.id e →
  x ∈ map (λ y, if same_id e y then e else y) acc.
Proof.
  intros Hin Hne. apply list_elem_of_In, in_map_iff. exists x.
  split; [|by apply list_elem_of_In].
  by rewrite (proj2 (same_id_false e x)).
Qed.

Lemma overwrite_puts e acc :
  existsb (same_id e) acc = true →
  e ∈ map (λ y, if same_id e y then e else y) acc.
Proof.
  intros Hex. apply existsb_exists in Hex as (y & Hy & Hsame).
  apply list_elem_of_In, in_map_iff. exists y. by rewrite Hsame.
Qed.

Lemma existsb_same_id e acc :
  existsb (same_id e) acc = true ↔ Entry.id e ∈ ids acc.
Proof.
  rewrite existsb_exists. unfold ids. rewrite list_elem_of_In, in_map_iff.
  split; intros (y & H1 & H2); exists y.
  - apply same_id_true in H2. done.
  - split; [done|]. by apply same_id_true.
Qed.

(** *** Merge *)

Lemma upsert_puts e acc : e ∈ upsert e acc.
Proof.
  unfold upsert. destruct (existsb (same_id e) acc) eqn:Hex.
  - by apply overwrite_puts.
  - apply elem_of_app. right. left.
Qed.

Lemma upsert_keeps e x acc :
  x ∈ acc → Entry.id x ≠ Entry.id e → x ∈ upsert e acc.
Proof.
  intros Hin Hne. unfold upsert. destruct (existsb (same_id e) acc).
  - by apply overwrite_keeps.
  - apply elem_of_app. by left.
Qed.

Lemma upsert_NoDup e acc : NoDup (ids acc) → NoDup (ids (upsert e acc)).
Proof.
  intros Hnd. unfold upsert. destruct (existsb (same_id e) acc) eqn:Hex.
  - by rewrite overwrite_ids.
  - unfold ids. rewrite map_app. simpl. apply NoDup_app. split_and!.
    + done.
    + intros i Hi Hi'. apply list_elem_of_singleton in Hi'. subst i.
      apply existsb_same_id in Hi. congruence.
    + apply NoDup_singleton.
Qed.

Lemma merge_NoDup acc es : NoDup (ids acc) → NoDup (ids (merge acc es)).
Proof.
  revert acc. induction es as [|e es IH]; intros acc Hnd; simpl; [done|].
  by apply IH, upsert_NoDup.
Qed.

Lemma merge_keeps x acc es :
  x ∈ acc → Entry.id x ∉ ids es → x ∈ merge acc es.
Proof.
  revert acc. induction es as [|e es IH]; intros acc Hin Hn; simpl; [done|].
  unfold ids in Hn. simpl in Hn. apply not_elem_of_cons in Hn as [Hne Hn].
  apply IH; [|done]. by apply upsert_keeps.
Qed.

Lemma merge_puts b acc es : NoDup (ids es) → b ∈ es → b ∈ merge acc es.
Proof.
  revert acc. induction es as [|e es IH]; intros acc Hnd Hin; simpl.
  - by apply elem_of_nil in Hin.
  - unfold ids in Hnd. simpl in Hnd. apply NoDup_cons in Hnd as [Hne Hnd].
    apply elem_of_cons in Hin as [->|Hin].
    + apply merge_keeps; [apply upsert_puts|done].
    + by apply IH.
Qed.

Lemma NoDup_ids_unique es x y :
  NoDup (ids es) → x ∈ es → y ∈ es → Entry.id x = Entry.id y → x = y.
Proof.
  induction es as [|z es IH]; intros Hnd Hx Hy Hid.
  - by apply elem_of_nil in Hx.
  - unfold ids in Hnd. simpl in Hnd. apply NoDup_cons in Hnd as [Hz Hnd].
    assert (Hmem : ∀ w, w ∈ es → Entry.id w ∈ map Entry.id es).
    { intros w Hw. apply list_elem_of_In, in_map, list_elem_of_In, Hw. }
    apply elem_of_cons in Hx as [->|Hx]; apply elem_of_cons in Hy as [->|Hy].
    + done.
    + exfalso. apply Hz. rewrite Hid. by apply Hmem.
    + exfalso. apply Hz. rewrite <- Hid. by apply Hmem.
    + by apply IH.
Qed.

(** *** Synchronisation *)

Lemma sync_entry_keeps e x acc :
  x ∈ acc → Entry.id x ≠ Entry.id e → x ∈ fst (sync_entry e acc).
Proof.
  intros Hin Hne. unfold sync_entry. destruct (find (same_id e) acc) as [old|].
  - destruct (Entry.updated_at old <? Entry.updated_at e)%Z; simpl; [|done].
    by apply overwrite_keeps.
  - simpl. apply elem_of_app. by left.
Qed.

Lemma sync_fold_keeps x from acc r :
  x ∈ acc → Entry.id x ∉ ids from →
  x ∈ fst (fold_left
             (λ '(acc, r) e, let (acc', a) := sync_entry e acc in (acc', count a r))
             from (acc, r)).
Proof.
  revert acc r. induction from as [|e from IH]; intros acc r Hin Hn; simpl; [done|].
  unfold ids in Hn. simpl in Hn. apply not_elem_of_cons in Hn as [Hne Hn].
  pose proof (sync_entry_keeps e x acc Hin Hne) as Hk.
  destruct (sync_entry e acc) as [acc' a]. by apply IH.
Qed.

(** *** The claims about merge and synchronisation *)

Lemma get_all_All_two (m : PasswordManager) (A B : Storage) :
  storages m !! Local = Some A → storages m !! Remote = Some B →
  Storage.enabled A = true → Storage.enabled B = true →
  Storage.connected A = true → Storage.connected B = true →
  get_all m All
    = Ok (merge (merge [] (StorageSnapshot.entries (Storage.snapshot A)))
            (StorageSnapshot.entries (Storage.snapshot B))).
Proof.
  intros HA HB HeA HeB HcA HcB.
  unfold get_all, enabled_storages, priority_order, enabled_storage. simpl.
  rewrite HA, HB, HeA, HeB. simpl. unfold Storage.load. by rewrite HcA, HcB.
Qed.

(** C2: with backend A merged first (local, priority 1) and backend B merged
    after it (remote, priority 2), both enabled and reachable and both holding
    an entry with the same id, [get_all All] returns B's entry and not A's,
    and returns no other entry with that id; nothing is asked of the two
    [updated_at] values beyond being different, and the result depends on the
    manager's state alone. *)
Theorem C2_get_all_later_backend_wins
    (m : PasswordManager) (A B : Storage) (a b : Entry) :
  storages m !! Local = Some A →
  storages m !! Remote = Some B →
  Storage.enabled A = true → Storage.enabled B = true →
  Storage.connected A = true → Storage.connected B = true →
  a ∈ StorageSnapshot.entries (Storage.snapshot A) →
  b ∈ StorageSnapshot.entries (Storage.snapshot B) →
  NoDup (ids (StorageSnapshot.entries (Storage.snapshot B))) →
  Entry.id a = Entry.id b →
  Entry.updated_at a ≠ Entry.updated_at b →
  ∃ es, get_all m All = Ok es
        ∧ b ∈ es
        ∧ (a ∉ es)
        ∧ ∀ e, e ∈ es → Entry.id e = Entry.id b → e = b.
Proof.
  intros HA HB HeA HeB HcA HcB Ha Hb Hnd Hid Hts.
  eexists. split; [by apply get_all_All_two|].
  set (es := merge _ _).
  assert (Hin : b ∈ es) by by apply merge_puts.
  assert (Hnd' : NoDup (ids es)).
  { apply merge_NoDup, merge_NoDup. apply NoDup_nil_2. }
  assert (Huniq : ∀ e, e ∈ es → Entry.id e = Entry.id b → e = b).
  { intros e He Heq. by apply (NoDup_ids_unique es). }
  split_and!; [done| |done].
  intros Ha'. apply Hts. by rewrite (Huniq a Ha' Hid).
Qed.

(** C3: when [sync_storages from to] goes through, an entry that [to] held
    and whose id [from] does not hold is still held by [to], as it was; and
    the call does go through when both backends are enabled and reachable.
    (When it fails it returns no new manager: nothing is written.) *)
Theorem C3_sync_keeps_to_only_entries
    (m : PasswordManager) (from to : StorageTarget) (now : Z)
    (A B : Storage) (e : Entry) :
  storages m !! from = Some A →
  storages m !! to = Some B →
  e ∈ StorageSnapshot.entries (Storage.snapshot B) →
  Entry.id e ∉ ids (StorageSnapshot.entries (Storage.snapshot A)) →
  (Storage.enabled A = true → Storage.enabled B = true →
   Storage.connected A = true → Storage.connected B = true →
   ∃ m' report, sync_storages m from to now = Ok (m', report))
  ∧ ∀ m' report,
      sync_storages m from to now = Ok (m', report) →
      ∃ B', storages m' !! to = Some B'
            ∧ e ∈ StorageSnapshot.entries (Storage.snapshot B').
Proof.
  intros HA HB He Hn.
  pose proof (sync_fold_keeps e _ _ (mkReport 0 0 0) He Hn) as Hkeep.
  unfold sync_storages, enabled_storage, sync_entries. rewrite HA, HB.
  split.
  - intros -> -> HcA HcB. unfold Storage.load, Storage.save. rewrite HcA, HcB.
    destruct (fold_left _ _ _) as [merged report]. by do 2 eexists.
  - intros m' report.
    destruct (Storage.enabled A); [|done].
    destruct (Storage.enabled B); [|done].
    unfold Storage.load, Storage.save.
    destruct (Storage.connected A); [|done].
    destruct (Storage.connected B); [|done].
    destruct (fold_left _ _ _) as [merged report'].
    intros [= <- <-]. eexists. split.
    + simpl. apply lookup_insert_eq.
    + done.
Qed.

End Manager.

(** C2 with the newer entry in the local backend: the remote one is returned
    all the same. *)
Lemma C2_get_all_later_backend_wins_witness :
  let a := Samples.entry "X" "Bank (local)" 200 in
  let b := Samples.entry "X" "Bank (remote)" 100 in
  let m := Samples.manager [a; Samples.entry "Y" "Mail" 50] [b] in
  ∃ es, Core.get_all m Core.All = Core.Ok es
        ∧ b ∈ es ∧ (a ∉ es)
        ∧ ∀ e, e ∈ es → Core.Entry.id e = Core.Entry.id b → e = b.
Proof.
  intros a b m.
  apply (C2_get_all_later_backend_wins m
           (Samples.backend [a; Samples.entry "Y" "Mail" 50])
           (Samples.backend [b]) a b).
  - reflexivity.
  - reflexivity.
  - reflexivity.
  - reflexivity.
  - reflexivity.
  - reflexivity.
  - simpl. left.
  - simpl. left.
  - simpl. apply NoDup_singleton.
  - reflexivity.
  - simpl. lia.
Defined.

(** C3 with one shared entry and one entry that only the remote backend
    holds. *)
Lemma C3_sync_keeps_to_only_entries_witness :
  let shared := Samples.entry "X" "Bank" 200 in
  let only_b := Samples.entry "Z" "Wiki" 10 in
  let m := Samples.manager [shared] [Samples.entry "X" "Bank" 100; only_b] in
  (∃ m' report, Core.sync_storages m Core.Local Core.Remote 1000 = Core.Ok (m', report))
  ∧ ∀ m' report,
      Core.sync_storages m Core.Local Core.Remote 1000 = Core.Ok (m', report) →
      ∃ B', Core.storages m' !! Core.Remote = Some B'
            ∧ only_b ∈ Core.StorageSnapshot.entries (Core.Storage.snapshot B').
Proof.
  intros shared only_b m.
  destruct (C3_sync_keeps_to_only_entries m Core.Local Core.Remote 1000
              (Samples.backend [shared])
              (Samples.backend [Samples.entry "X" "Bank" 100; only_b]) only_b)
    as [Hruns Hkeeps].
  - reflexivity.
  - reflexivity.
  - simpl. right. left.
  - simpl. intros Hin. apply list_elem_of_singleton in Hin. discriminate Hin.
  - split; [|exact Hkeeps]. by apply Hruns.
Defined.

(** * Adding a password: the required fields *)

Lemma non_empty_spec (x : string) : Core.non_empty x = true ↔ x ≠ "".
Proof.
  unfold Core.non_empty. rewrite negb_true_iff. apply String.eqb_neq.
Qed.

Lemma required_present_spec (req : Core.CreateRequest) :
  Core.required_present req = true ↔
  all_filled (Core.CreateRequest.title req) (Core.CreateRequest.username req)
    (Core.CreateRequest.password req) (Core.CreateRequest.key req).
Proof.
  unfold Core.required_present, all_filled.
  rewrite !andb_true_iff, !non_empty_spec. tauto.
Qed.

Lemma add_validation argon2id m (req : Core.CreateRequest) targets now g :
  Core.outcome (Core.add argon2id m req targets now g)
    = Core.Err Core.ValidationError
  ↔ Core.required_present req = false.
Proof.
  unfold Core.add. destruct (Core.required_present req); cbn [negb].
  - split; [|done]. intros Hout. exfalso.
    assert (Hd : ∀ p s l k, Core.derive argon2id p s l = Core.Err k →
                            k = Core.KeyDerivationError).
    { intros p s l k. unfold Core.derive.
      repeat case_match; congruence. }
    destruct (Core.derive argon2id (Core.kdf m) _ (Core.salt m)) as [key|k] eqn:Hk.
    + destruct (Core.encrypt key _ g) as [secret g1].
      destruct (Core.protect_description argon2id m key req g1)
        as [[description|k] g2] eqn:Hp.
      * destruct (Core.fresh_id g2) as [id g3].
        destruct (Core.write_all _ _ m) as [m' [|t failed]];
          cbn [Core.outcome] in Hout; discriminate Hout.
      * cbn [Core.outcome] in Hout. unfold Core.protect_description in Hp.
        destruct (Core.double_encryption m); [|congruence].
        destruct (Core.derive argon2id (Core.kdf m) _ (Core.secondary_salt m))
          as [secondary|k'] eqn:Hk'.
        -- destruct (Core.encrypt_twice _ _ _ _). congruence.
        -- apply Hd in Hk'. congruence.
    + cbn [Core.outcome] in Hout. apply Hd in Hk. congruence.
  - done.
Qed.

(** C4: the back end's [add] fails with [ValidationError] exactly when one
    of the required fields of the request (title, username, password, key) is
    empty, and then leaves the manager as it was; the front end's
    [addPassword] invokes [add_password], with the pending request, exactly
    when those four fields are all non-empty, and otherwise records the
    missing-field error without invoking anything. *)
Theorem C4_add_password_required_fields
    {W : Type} {host : Backend W} (s : Sys W Refs)
    (argon2id : Core.KdfParams → string → list byte → option (list byte))
    (m : Core.PasswordManager) (req : Core.CreateRequest)
    (targets : option (list Core.StorageTarget)) (now : Z) (g : Core.Rng) :
  let np := newPassword (refs s) in
  let filled :=
    all_filled (PasswordCreateRequest.title np) (PasswordCreateRequest.username np)
      (PasswordCreateRequest.password np) (PasswordCreateRequest.key np) in
  let result := Core.add argon2id m req targets now g in
  (Core.outcome result = Core.Err Core.ValidationError
   ↔ ¬ all_filled (Core.CreateRequest.title req) (Core.CreateRequest.username req)
         (Core.CreateRequest.password req) (Core.CreateRequest.key req))
  ∧ (Core.outcome result = Core.Err Core.ValidationError →
     Core.manager result = m)
  ∧ (filled →
     ∃ rest, invoked (exec addPassword s) = invoked s ++ add_password np :: rest
             ∧ (rest = [] ∨ rest = [get_all_passwords_from_storage "local"]))
  ∧ (¬ filled →
     invoked (exec addPassword s) = invoked s
     ∧ world (exec addPassword s) = world s
     ∧ error (refs (exec addPassword s)) = "请填写所有必填字段").
Proof.
  intros np filled result. split_and!.
  - unfold result. rewrite add_validation, <- required_present_spec.
    by destruct (Core.required_present req).
  - unfold result. intros Hout. apply add_validation in Hout.
    unfold Core.add. by rewrite Hout.
  - intros Hf. apply addPassword_dispatches, required_filled_spec, Hf.
  - intros Hn.
    assert (Hreq : required_filled np = false).
    { destruct (required_filled np) eqn:E; [|done].
      exfalso. by apply Hn, required_filled_spec. }
    destruct (addPassword_refuses s Hreq) as (H1 & H2 & H3 & _). done.
Qed.

(** * The password generator *)

Section GeneratorProofs.
Import Core Generator.

Implicit Types (cfg : PasswordGeneratorConfig) (g : Rng) (l cs acc : list ascii).

(** *** Random choices *)

Lemma random_index_lt bound g : 0 < bound → fst (random_index bound g) < bound.
Proof.
  intros Hb. unfold random_index, random_bytes. simpl.
  apply Nat.mod_upper_bound. lia.
Qed.

Lemma pick_in l g : l ≠ [] → fst (pick l g) ∈ l.
Proof.
  intros Hl. unfold pick.
  pose proof (random_index_lt (length l) g) as Hlt.
  destruct (random_index (length l) g) as [i g']. simpl in *.
  apply list_elem_of_In, nth_In, Hlt. destruct l; [done|simpl; lia].
Qed.

Lemma pick_each_spec (sets : list (list ascii)) g :
  Forall (λ s, s ≠ []) sets →
  Forall2 (λ c s, c ∈ s) (fst (pick_each sets g)) sets.
Proof.
  intros Hsets. revert g.
  induction Hsets as [|s sets Hs _ IH]; intros g; cbn [pick_each].
  - constructor.
  - pose proof (pick_in s g Hs) as Hc. destruct (pick s g) as [c g1].
    specialize (IH g1). destruct (pick_each sets g1) as [cs g2].
    by constructor.
Qed.

Lemma pick_many_spec n l g :
  l ≠ [] →
  Forall (λ c, c ∈ l) (fst (pick_many n l g)) ∧ length (fst (pick_many n l g)) = n.
Proof.
  intros Hl. revert g. induction n as [|n IH]; intros g; cbn [pick_many]; [done|].
  pose proof (pick_in l g Hl) as Hc. destruct (pick l g) as [c g1].
  destruct (IH g1) as [IH1 IH2]. destruct (pick_many n l g1) as [cs g2].
  cbn [fst length] in *. split; [by constructor|by rewrite IH2].
Qed.

Lemma insert_at_perm i c l : insert_at i c l ≡ₚ c :: l.
Proof.
  unfold insert_at. rewrite <- Permutation_middle. by rewrite take_drop.
Qed.

Lemma shuffle_perm cs acc g : fst (shuffle cs acc g) ≡ₚ cs ++ acc.
Proof.
  revert acc g. induction cs as [|c cs IH]; intros acc g; cbn [shuffle]; [done|].
  destruct (random_index (S (length acc)) g) as [i g1].
  rewrite IH, insert_at_perm. by rewrite <- Permutation_middle.
Qed.

(** *** Classes and pools *)

Lemma is_nil_false {A} (l : list A) : is_nil l = false ↔ l ≠ [].
Proof. by destruct l. Qed.

Lemma allowed_spec cfg cls c :
  c ∈ allowed cfg cls ↔ (c ∉ excluded cfg) ∧ c ∈ class_chars cls.
Proof. unfold allowed. by rewrite list_elem_of_filter. Qed.

Lemma elem_of_flat_map {A B} (f : A → list B) (l : list A) (y : B) :
  y ∈ flat_map f l ↔ ∃ x, x ∈ l ∧ y ∈ f x.
Proof.
  rewrite list_elem_of_In, in_flat_map. split; intros (x & H1 & H2); exists x.
  - by rewrite !list_elem_of_In.
  - by rewrite <- !list_elem_of_In.
Qed.

Lemma all_classes cls : cls ∈ classes.
Proof. destruct cls; unfold classes; set_solver. Qed.

Lemma pool_spec cfg c : c ∈ pool cfg ↔ c ∈ alphabet ∧ c ∉ excluded cfg.
Proof.
  unfold pool, alphabet. rewrite !elem_of_flat_map. split.
  - intros (cls & _ & Hc). apply allowed_spec in Hc as [Hn Hc].
    split; [|done]. exists cls. split; [apply all_classes|done].
  - intros [(cls & _ & Hc) Hn]. exists cls.
    split; [apply all_classes|]. by apply allowed_spec.
Qed.

Lemma required_NoDup cfg : NoDup (required cfg).
Proof.
  unfold required.
  destruct (PasswordGeneratorConfig.require_uppercase cfg),
    (PasswordGeneratorConfig.require_lowercase cfg),
    (PasswordGeneratorConfig.require_numbers cfg),
    (PasswordGeneratorConfig.require_symbols cfg); simpl;
    apply (bool_decide_unpack _); by vm_compute.
Qed.

Lemma picked_from_each (must : list ascii) (req : list Class) (f : Class → list ascii) :
  Forall2 (λ c s, c ∈ s) must (map f req) →
  length must = length req
  ∧ (∀ cls, cls ∈ req → ∃ c, c ∈ must ∧ c ∈ f cls)
  ∧ (∀ c, c ∈ must → ∃ cls, cls ∈ req ∧ c ∈ f cls).
Proof.
  revert must. induction req as [|cls0 req IH]; intros must Hall; simpl in Hall.
  - apply Forall2_nil_inv_r in Hall as ->. split_and!; [done| |];
      intros x Hx; by apply elem_of_nil in Hx.
  - apply Forall2_cons_inv_r in Hall as (c0 & must' & Hc0 & Hall & ->).
    destruct (IH must' Hall) as (Hlen & Hreq & Hmust). split_and!.
    + simpl. by rewrite Hlen.
    + intros cls Hcls. apply elem_of_cons in Hcls as [->|Hcls].
      * exists c0. split; [left|done].
      * destruct (Hreq cls Hcls) as (c & Hc & Hc'). exists c.
        split; [by right|done].
    + intros c Hc. apply elem_of_cons in Hc as [->|Hc].
      * exists cls0. split; [left|done].
      * destruct (Hmust c Hc) as (cls & Hcls & Hc'). exists cls.
        split; [by right|done].
Qed.

Lemma rejects_false cfg :
  rejects cfg = false
  ↔ (1 ≤ PasswordGeneratorConfig.length cfg)%Z
    ∧ (Z.of_nat (length (required cfg)) ≤ PasswordGeneratorConfig.length cfg)%Z
    ∧ Forall (λ s, s ≠ []) (map (allowed cfg) (required cfg))
    ∧ pool cfg ≠ [].
Proof.
  unfold rejects. cbv zeta. rewrite !orb_false_iff, !Z.ltb_ge, is_nil_false.
  assert (Hex : existsb (λ cls, is_nil (allowed cfg cls)) (required cfg) = false
                ↔ Forall (λ s, s ≠ []) (map (allowed cfg) (required cfg))).
  { induction (required cfg) as [|cls req IH]; simpl.
    - split; [constructor|done].
    - rewrite orb_false_iff, Forall_cons, IH, is_nil_false. done. }
  rewrite Hex. tauto.
Qed.

Lemma generate_guarded cfg g :
  let n := PasswordGeneratorConfig.length cfg in
  (1 ≤ n)%Z → (Z.of_nat (length (required cfg)) ≤ n)%Z →
  Forall (λ s, s ≠ []) (map (allowed cfg) (required cfg)) →
  pool cfg ≠ [] →
  ∃ pw, fst (generate cfg g) = Ok pw ∧ meets cfg pw.
Proof.
  intros n H1 H2 H3 H4. subst n. unfold generate.
  rewrite (proj2 (rejects_false cfg)) by done.
  pose proof (pick_each_spec (map (allowed cfg) (required cfg)) g H3) as Hmust.
  destruct (pick_each _ g) as [must g1]. cbn [fst] in Hmust.
  apply picked_from_each in Hmust as (Hlen & Hreq & Hmust).
  destruct (pick_many_spec
              (Z.to_nat (PasswordGeneratorConfig.length cfg) - length (required cfg))
              (pool cfg) g1 H4) as [Hrest Hlen'].
  destruct (pick_many _ _ g1) as [rest g2]. cbn [fst] in Hrest, Hlen'.
  pose proof (shuffle_perm (must ++ rest) [] g2) as Hperm.
  destruct (shuffle _ _ g2) as [pw g3]. cbn [fst] in *.
  rewrite app_nil_r in Hperm.
  eexists. split; [done|]. unfold meets, chars.
  rewrite list_ascii_of_string_of_list_ascii. split_and!.
  - rewrite Hperm, length_app, Hlen, Hlen'. lia.
  - intros c Hc. rewrite Hperm in Hc. apply pool_spec.
    apply elem_of_app in Hc as [Hc|Hc].
    + destruct (Hmust c Hc) as (cls & _ & Hc'). apply allowed_spec in Hc'.
      apply pool_spec. split; [|tauto].
      apply elem_of_flat_map. exists cls. split; [apply all_classes|tauto].
    + rewrite Forall_forall in Hrest. by apply Hrest.
  - intros cls Hcls. destruct (Hreq cls Hcls) as (c & Hc & Hc').
    exists c. rewrite Hperm. split; [apply elem_of_app; by left|].
    by apply allowed_spec in Hc' as [_ ?].
Qed.

Lemma generate_fails cfg g :
  fst (generate cfg g) = Err ValidationError
  ∨ ∃ pw, fst (generate cfg g) = Ok pw ∧ meets cfg pw.
Proof.
  destruct (rejects cfg) eqn:Hguard.
  - left. unfold generate. by rewrite Hguard.
  - right. apply rejects_false in Hguard as (H1 & H2 & H3 & H4).
    by apply generate_guarded.
Qed.

(** *** Satisfiable configurations pass the checks *)

Lemma class_of_in c cls : c ∈ class_chars cls → class_of c = Some cls.
Proof.
  intros Hc. destruct cls; unfold class_chars in Hc; simpl in Hc;
    repeat (apply elem_of_cons in Hc as [->|Hc]; [reflexivity|]);
    by apply elem_of_nil in Hc.
Qed.

Lemma omap_length {A B} (f : A → option B) (l : list A) :
  length (omap f l) ≤ length l.
Proof.
  induction l as [|x l IH]; csimpl; [done|]. destruct (f x); csimpl; lia.
Qed.

Lemma required_fit cfg pw :
  (∀ cls, cls ∈ required cfg → ∃ c, c ∈ chars pw ∧ c ∈ class_chars cls) →
  length (required cfg) ≤ length (chars pw).
Proof.
  intros Hreq. etrans; [|apply (omap_length class_of)].
  apply submseteq_length, NoDup_submseteq; [apply required_NoDup|].
  intros cls Hcls. destruct (Hreq cls Hcls) as (c & Hc & Hc').
  apply list_elem_of_omap. exists c. split; [done|]. by apply class_of_in.
Qed.

Lemma satisfiable_guarded cfg :
  (1 ≤ PasswordGeneratorConfig.length cfg)%Z → satisfiable cfg →
  (Z.of_nat (length (required cfg)) ≤ PasswordGeneratorConfig.length cfg)%Z
  ∧ Forall (λ s, s ≠ []) (map (allowed cfg) (required cfg))
  ∧ pool cfg ≠ [].
Proof.
  intros Hn (pw & Hlen & Hchars & Hreq). split_and!.
  - rewrite <- Hlen. apply inj_le. by apply required_fit.
  - apply Forall_forall. intros s Hs.
    apply list_elem_of_In, in_map_iff in Hs as (cls & <- & Hcls).
    apply list_elem_of_In in Hcls.
    destruct (Hreq cls Hcls) as (c & Hc & Hc').
    intros Hnil. assert (Hin : c ∈ allowed cfg cls).
    { apply allowed_spec. split; [by apply Hchars|done]. }
    rewrite Hnil in Hin. by apply elem_of_nil in Hin.
  - destruct (chars pw) as [|c l] eqn:E; [simpl in Hlen; lia|].
    assert (Hc : c ∈ pool cfg) by (apply pool_spec, Hchars; left).
    intros Hnil. rewrite Hnil in Hc. by apply elem_of_nil in Hc.
Qed.

(** C7: a password that [generate] returns has the requested length, is
    made of allowed characters none of which is excluded, and holds a
    character of every required class; when no such password exists,
    [generate] fails with [ValidationError]; and for a length of at least 1 it
    does return a password whenever one exists. *)
Theorem C7_generate_password_contract cfg g :
  (∀ pw, fst (generate cfg g) = Ok pw → meets cfg pw)
  ∧ (¬ satisfiable cfg → fst (generate cfg g) = Err ValidationError)
  ∧ ((1 ≤ PasswordGeneratorConfig.length cfg)%Z → satisfiable cfg →
     ∃ pw, fst (generate cfg g) = Ok pw).
Proof.
  split_and!.
  - intros pw Hpw. destruct (generate_fails cfg g) as [Hf|(pw' & Hok & Hm)];
      congruence.
  - intros Hn. destruct (generate_fails cfg g) as [Hf|(pw' & Hok & Hm)]; [done|].
    exfalso. apply Hn. by exists pw'.
  - intros Hlen Hsat. destruct (satisfiable_guarded cfg Hlen Hsat) as (H2 & H3 & H4).
    destruct (generate_guarded cfg g Hlen H2 H3 H4) as (pw & Hok & _).
    by exists pw.
Qed.

End GeneratorProofs.

(** * Checks on concrete inputs *)

(** FIPS 197, appendix C.3: key 00 01 .. 1f, block 00 11 .. ff. *)
Example aes256_fips197_c3 :
  Aes.encrypt_block (map N.of_nat (seq 0 32))
    (map (λ i, N.of_nat (17 * i)) (seq 0 16))
  = [142; 162; 183; 202; 81; 103; 69; 191; 234; 252; 73; 144; 75; 73; 96; 137]%N.
Proof. by vm_compute. Qed.

(** The GCM test cases with an all-zero 256-bit key and nonce: no plaintext,
    and one block of zeros. *)
Example gcm_zero_key_empty :
  Bytes.to_Ns (Gcm.seal (Bytes.zeros 32) (Bytes.zeros 12) [])
  = [83; 15; 138; 251; 199; 69; 54; 185; 169; 99; 180; 241; 196; 203; 115; 139]%N.
Proof. by vm_compute. Qed.

Example gcm_zero_key_one_block :
  Bytes.to_Ns (Gcm.seal (Bytes.zeros 32) (Bytes.zeros 12) (Bytes.zeros 16))
  = [206; 167; 64; 61; 77; 96; 107; 110; 7; 78; 197; 211; 186; 243; 157; 24;
     208; 209; 200; 167; 153; 153; 107; 240; 38; 91; 152; 181; 212; 138; 185; 25]%N.
Proof. by vm_compute. Qed.

(** A ciphertext does not open under another key, nor after a change. *)
Example decrypt_wrong_key :
  let k1 := Core.MasterKey.mk (Bytes.zeros 32) (Bytes.zeros 16) in
  let k2 := Core.MasterKey.mk (Byte.x01 :: Bytes.zeros 31) (Bytes.zeros 16) in
  let g := Core.mkRng (λ i, Bytes.byte_of_N (N.of_nat (7 * i + 3))) 0 in
  let data := fst (Core.encrypt k1 (list_byte_of_string "p@ss1") g) in
  Core.decrypt k1 data = Core.Ok (list_byte_of_string "p@ss1")
  ∧ Core.decrypt k2 data = Core.Err Core.DecryptionError
  ∧ Core.decrypt k1
      (Core.EncryptedData.mk
         (Byte.x00 :: drop 1 (Core.EncryptedData.ciphertext data))
         (Core.EncryptedData.nonce data) (Core.EncryptedData.salt data))
    = Core.Err Core.DecryptionError
  ∧ Core.decrypt k1
      (Core.EncryptedData.mk (take 10 (Core.EncryptedData.ciphertext data))
         (Core.EncryptedData.nonce data) (Core.EncryptedData.salt data))
    = Core.Err Core.MalformedCiphertextError.
Proof. by vm_compute. Qed.

(** [trim] takes off white space at both ends only, U+00A0 and U+3000
    included. *)
Example trim_examples :
  Js.trim "  a b  " = "a b"
  ∧ Js.trim "" = ""
  ∧ Js.trim (string_of_list_ascii (Js.of_bytes [9; 32; 194; 160; 227; 128; 128; 10])) = ""
  ∧ Js.trim "x" = "x".
Proof. by vm_compute. Qed.

(** A blank query loads the local list; another query searches. *)
Example handleSearch_on_memory_host :
  let s0 := boot [Hosts.stored "Bank"; Hosts.stored "Mail"] in
  let blank := exec (handleSearch (host := Hosts.memory) "   ") s0 in
  let found := exec (handleSearch (host := Hosts.memory) "Mail") s0 in
  invoked blank = [get_all_passwords_from_storage "local"]
  ∧ passwords (refs blank) = [Hosts.stored "Bank"; Hosts.stored "Mail"]
  ∧ invoked found = [search_passwords "Mail"]
  ∧ passwords (refs found) = [Hosts.stored "Mail"].
Proof. by vm_compute. Qed.

(** The add form: a request without a key is refused in the component; a
    filled one is sent, the form is reset and the list reloaded. *)
Example addPassword_on_memory_host :
  let fill := [ev_form_input f_title "Bank"; ev_form_input f_username "me";
               ev_form_input f_password "p@ss1"] in
  let refused :=
    exec (run (host := Hosts.memory) (fill ++ [ev_submit])) (boot []) in
  let sent :=
    exec (run (host := Hosts.memory)
            (fill ++ [ev_form_input f_key "correct-key"; ev_tag_enter "money";
                      ev_tag_enter "money"; ev_submit]))
      (boot []) in
  invoked refused = []
  ∧ error (refs refused) = "请填写所有必填字段"
  ∧ invoked sent
      = [add_password
           (PasswordCreateRequest.mk "Bank" "" ["money"] "me" "p@ss1" (Some "")
              "correct-key");
         get_all_passwords_from_storage "local"]
  ∧ newPassword (refs sent) = emptyRequest
  ∧ passwords (refs sent) = [Hosts.stored "Bank"].
Proof. by vm_compute. Qed.

(** Length 12, symbols required, [0] and [O] excluded. *)
Example generate_scenario :
  let cfg := PasswordGeneratorConfig.mk 12 (Some "0O") false false false true in
  let g := Core.mkRng (λ i, Bytes.byte_of_N (N.of_nat (37 * i * i + 11 * i + 5))) 0 in
  fst (Generator.generate cfg g) = Core.Ok "DusS9^3_mee:"
  ∧ fst (Generator.generate
           (PasswordGeneratorConfig.mk 3 None true true true true) g)
    = Core.Err Core.ValidationError
  ∧ fst (Generator.generate
           (PasswordGeneratorConfig.mk 8 (Some "0123456789") false false true false) g)
    = Core.Err Core.ValidationError.
Proof. by vm_compute. Qed.

(** Merge goes by order, synchronisation by time: with the newer entry in
    the local backend, [get_all All] still shows the remote one, and syncing
    local into remote overwrites it. *)
Example merge_and_sync :
  let newer := Samples.entry "X" "Bank (local)" 200 in
  let older := Samples.entry "X" "Bank (remote)" 100 in
  let only_remote := Samples.entry "Z" "Wiki" 10 in
  let m := Samples.manager [newer] [older; only_remote] in
  Core.get_all m Core.All = Core.Ok [older; only_remote]
  ∧ ∃ m' report,
      Core.sync_storages m Core.Local Core.Remote 1000 = Core.Ok (m', report)
      ∧ Core.get_all m' Core.Remote = Core.Ok [newer; only_remote]
      ∧ report = Core.mkReport 0 1 0.
Proof. split; [by vm_compute|]. do 2 eexists. by vm_compute. Qed.

(** * Further properties of the front end *)

(** Open a handler down to the host's answers; then case on every answer and
    every guard. *)
Ltac open_handler :=
  unfold exec, dispatch, on_emits, on_emit, SearchBar.handleInput,
    SearchBar.handleSearch, SearchBar.clearSearch, initializeApp, handleSearch,
    addPassword, deletePassword, decryptPasswordFunc, generatePassword,
    resetForm, loadPasswords, addTag, removeTag, on_tags, addLog, bind, invoke,
    console_error, modify, get, ret.

Ltac by_answers :=
  repeat (simpl;
    match goal with
    | |- context [respond ?c ?w] => destruct (respond c w) as [[?|?] ?]
    | |- context [if ?b then _ else _] => destruct b
    | |- context [match find ?f ?l with _ => _ end] => destruct (find f l)
    end); simpl.

Section FrontEndMore.
Context {W : Type} {host : Backend W}.

Implicit Types (s : Sys W Refs) (ts : list string) (tag : string).

(** *** Start-up *)

(** X1: when [initialize_manager] rejects, [initializeApp] invokes nothing
    else (the list is not loaded), keeps the displayed list, records the
    rejection's [info] as the error and ends with the loading flag off. *)
Theorem X1_initializeApp_rejected s (e : Js.Thrown) (w' : W) :
  respond initialize_manager (world s) = (inl e, w') →
  invoked (exec initializeApp s) = invoked s ++ [initialize_manager]
  ∧ world (exec initializeApp s) = w'
  ∧ passwords (refs (exec initializeApp s)) = passwords (refs s)
  ∧ error (refs (exec initializeApp s)) = "初始化失败: " +:+ Js.info_of e
  ∧ isLoading (refs (exec initializeApp s)) = false.
Proof.
  intros Hrej. open_handler. simpl. rewrite Hrej. simpl. done.
Qed.

(** X2: when [initialize_manager] resolves, [initializeApp] goes on to load
    the local list, and nothing else; the displayed list is the loaded one, or
    empty when the load rejects; the error is cleared unless the load rejects;
    the loading flag ends off. *)
Theorem X2_initializeApp_resolved s (u : unit) (w1 : W) :
  respond initialize_manager (world s) = (inr u, w1) →
  invoked (exec initializeApp s)
    = invoked s ++ [initialize_manager; get_all_passwords_from_storage "local"]
  ∧ isLoading (refs (exec initializeApp s)) = false
  ∧ (∀ d w2,
       respond (get_all_passwords_from_storage "local") w1 = (inr d, w2) →
       passwords (refs (exec initializeApp s)) = StorageData.passwords d
       ∧ error (refs (exec initializeApp s)) = ""
       ∧ world (exec initializeApp s) = w2)
  ∧ (∀ e w2,
       respond (get_all_passwords_from_storage "local") w1 = (inl e, w2) →
       passwords (refs (exec initializeApp s)) = []
       ∧ error (refs (exec initializeApp s))
           = "加载密码失败: " +:+ Js.to_string e).
Proof.
  intros Hok. open_handler. simpl. rewrite Hok. simpl.
  destruct (respond (get_all_passwords_from_storage "local") w1)
    as [[e|d] w2] eqn:Hload; simpl; rewrite <- app_assoc;
    (split_and!; [done|done| |]); intros ? ? [= <- <-]; done.
Qed.

(** *** Deleting *)

(** X4: [deletePassword] invokes [delete_password] exactly when the user
    confirmed, and reloads the list exactly when that call resolved; declined
    or rejected, the displayed list stays as it was. *)
Theorem X4_deletePassword_outcomes s (id : string) (confirmed : bool) :
  let s' := exec (deletePassword id confirmed) s in
  let answer := respond (delete_password id) (world s) in
  invoked s'
    = invoked s
      ++ (if confirmed
          then delete_password id
               :: match fst answer with
                  | inr _ => [get_all_passwords_from_storage "local"]
                  | inl _ => []
                  end
          else [])
  ∧ (confirmed = false → s' = s)
  ∧ (∀ e, confirmed = true → fst answer = inl e →
          passwords (refs s') = passwords (refs s)
          ∧ error (refs s') = "删除密码失败: " +:+ Js.to_string e).
Proof.
  destruct confirmed; open_handler; simpl.
  - destruct (respond (delete_password id) (world s)) as [[e|u] w1]; simpl.
    + split_and!; [done|done|]. by intros e' _ [= <-].
    + destruct (respond _ w1) as [[e|d] w2]; simpl;
        (split_and!; [by rewrite <- app_assoc|done|done]).
  - split_and!; [by rewrite app_nil_r|by destruct s|done].
Qed.

(** *** Viewing a secret *)

(** X5: for an id on display, [decryptPasswordFunc] sends the encrypted
    password of the first displayed entry with that id, together with the key;
    when the call resolves the dialog opens on the returned text; the
    displayed list is not touched. *)
Theorem X5_decryptPasswordFunc_found s (id key : string) (p : Password)
    (decrypted : string) (w' : W) :
  find (λ q, String.eqb (Password.id q) id) (passwords (refs s)) = Some p →
  respond (decrypt_password (Password.encrypted_password p) key) (world s)
    = (inr decrypted, w') →
  let s' := exec (decryptPasswordFunc id key) s in
  invoked s'
    = invoked s ++ [decrypt_password (Password.encrypted_password p) key]
  ∧ decryptPassword (refs s')
      = DecryptDialog.mk id key decrypted (Some (Password.encrypted_password p))
  ∧ showDecryptDialog (refs s') = true
  ∧ passwords (refs s') = passwords (refs s)
  ∧ error (refs s') = error (refs s).
Proof.
  intros Hfind Hok. open_handler. simpl. rewrite Hfind. simpl.
  rewrite Hok. simpl. done.
Qed.

(** X6: for an id that no displayed entry has, [decryptPasswordFunc] does
    nothing at all: no call, no error, no dialog. *)
Theorem X6_decryptPasswordFunc_unknown_id s (id key : string) :
  id ∉ map Password.id (passwords (refs s)) →
  exec (decryptPasswordFunc id key) s = s.
Proof.
  intros Hn.
  assert (Hfind : find (λ q, String.eqb (Password.id q) id) (passwords (refs s)) = None).
  { induction (passwords (refs s)) as [|q l IH]; simpl; [done|].
    simpl in Hn. apply not_elem_of_cons in Hn as [Hne Hn].
    destruct (String.eqb_spec (Password.id q) id); [congruence|by apply IH]. }
  open_handler. simpl. rewrite Hfind. by destruct s.
Qed.

(** X7: a rejected [decrypt_password] leaves the dialog as it was, closed or
    open on the previous secret, and records the error. *)
Theorem X7_decryptPasswordFunc_rejected s (id key : string) (p : Password)
    (e : Js.Thrown) (w' : W) :
  find (λ q, String.eqb (Password.id q) id) (passwords (refs s)) = Some p →
  respond (decrypt_password (Password.encrypted_password p) key) (world s)
    = (inl e, w') →
  let s' := exec (decryptPasswordFunc id key) s in
  decryptPassword (refs s') = decryptPassword (refs s)
  ∧ showDecryptDialog (refs s') = showDecryptDialog (refs s)
  ∧ error (refs s') = "解密密码失败: " +:+ Js.to_string e.
Proof.
  intros Hfind Hrej. open_handler. simpl. rewrite Hfind. simpl.
  rewrite Hrej. simpl. done.
Qed.

(** *** The generator dialog *)

(** X8: [generatePassword] sends the current generator configuration; when
    the call resolves, the generated text replaces the form's password and
    nothing else of the form, and the dialog closes; when it rejects, the form
    and the dialog stay as they were and the error is recorded. *)
Theorem X8_generatePassword_outcomes s :
  let s' := exec generatePassword s in
  let np := newPassword (refs s) in
  invoked s' = invoked s ++ [generate_password (generatorConfig (refs s))]
  ∧ (∀ generated w',
       respond (generate_password (generatorConfig (refs s))) (world s)
         = (inr generated, w') →
       newPassword (refs s')
         = PasswordCreateRequest.mk (PasswordCreateRequest.title np)
             (PasswordCreateRequest.description np) (PasswordCreateRequest.tags np)
             (PasswordCreateRequest.username np) generated
             (PasswordCreateRequest.url np) (PasswordCreateRequest.key np)
       ∧ showGenerator (refs s') = false
       ∧ error (refs s') = error (refs s))
  ∧ (∀ e w',
       respond (generate_password (generatorConfig (refs s))) (world s)
         = (inl e, w') →
       newPassword (refs s') = np
       ∧ showGenerator (refs s') = showGenerator (refs s)
       ∧ error (refs s') = "生成密码失败: " +:+ Js.to_string e).
Proof.
  open_handler. simpl.
  destruct (respond _ (world s)) as [[e|generated] w1]; simpl;
    (split_and!; [done| |]); intros ? ? [= <- <-]; done.
Qed.

(** *** The add form, after validation *)

Lemma filled_guard (np : PasswordCreateRequest) :
  required_filled np = true →
  Js.falsy (PasswordCreateRequest.title np)
  || Js.falsy (PasswordCreateRequest.username np)
  || Js.falsy (PasswordCreateRequest.password np)
  || Js.falsy (PasswordCreateRequest.key np) = false.
Proof.
  unfold required_filled.
  destruct (Js.falsy (PasswordCreateRequest.title np)),
    (Js.falsy (PasswordCreateRequest.username np)),
    (Js.falsy (PasswordCreateRequest.password np)),
    (Js.falsy (PasswordCreateRequest.key np)); simpl; congruence.
Qed.

(** X9: when [add_password] rejects, [addPassword] keeps the form exactly as
    the user filled it and leaves it open, does not reload the list, and
    records the rejection's [info]. *)
Theorem X9_addPassword_rejected_keeps_form s (e : Js.Thrown) (w' : W) :
  required_filled (newPassword (refs s)) = true →
  respond (add_password (newPassword (refs s))) (world s) = (inl e, w') →
  let s' := exec addPassword s in
  invoked s' = invoked s ++ [add_password (newPassword (refs s))]
  ∧ newPassword (refs s') = newPassword (refs s)
  ∧ showAddForm (refs s') = showAddForm (refs s)
  ∧ passwords (refs s') = passwords (refs s)
  ∧ error (refs s') = "添加密码失败: " +:+ Js.info_of e.
Proof.
  intros Hreq Hrej. apply filled_guard in Hreq.
  unfold exec, addPassword, bind, get. simpl. rewrite Hreq.
  open_handler. simpl. rewrite Hrej. simpl. done.
Qed.

(** X10: when [add_password] resolves, [addPassword] closes the form, puts
    the empty request back (tags included), and reloads the local list: the
    displayed list is what the host then returns, or empty when that load
    rejects. *)
Theorem X10_addPassword_resolved_resets_and_reloads s (u : unit) (w1 : W) :
  required_filled (newPassword (refs s)) = true →
  respond (add_password (newPassword (refs s))) (world s) = (inr u, w1) →
  let s' := exec addPassword s in
  invoked s'
    = invoked s ++ [add_password (newPassword (refs s));
                    get_all_passwords_from_storage "local"]
  ∧ newPassword (refs s') = emptyRequest
  ∧ showAddForm (refs s') = false
  ∧ passwords (refs s')
      = match fst (respond (get_all_passwords_from_storage "local") w1) with
        | inr d => StorageData.passwords d
        | inl _ => []
        end.
Proof.
  intros Hreq Hok. apply filled_guard in Hreq.
  unfold exec, addPassword, bind, get. simpl. rewrite Hreq.
  open_handler. simpl. rewrite Hok. simpl.
  destruct (respond _ w1) as [[e|d] w2]; simpl; by rewrite <- app_assoc.
Qed.

(** *** Searching *)

(** X11: when [search_passwords] rejects, [handleSearch] keeps the list that
    was on display (unlike a failed load, which empties it) and records the
    error; the search text is the new query all the same. *)
Theorem X11_handleSearch_rejected_keeps_list s (query : string)
    (e : Js.Thrown) (w' : W) :
  Js.trim query ≠ "" →
  respond (search_passwords query) (world s) = (inl e, w') →
  let s' := exec (handleSearch query) s in
  passwords (refs s') = passwords (refs s)
  ∧ error (refs s') = "搜索失败: " +:+ Js.to_string e
  ∧ searchQuery (refs s') = query.
Proof.
  intros Hq Hrej.
  assert (Hf : Js.falsy (Js.trim query) = false) by by destruct (Js.trim query).
  unfold exec, handleSearch, bind, modify. simpl. rewrite Hf.
  open_handler. simpl. rewrite Hrej. simpl. done.
Qed.

(** *** What holds along every sequence of user actions *)

Lemma dispatch_isLoading ev s :
  isLoading (refs s) = false → isLoading (refs (exec (dispatch ev) s)) = false.
Proof. intros Hs. destruct ev; open_handler; by_answers; done. Qed.

(** X3: between user actions the loading flag is off: [initializeApp] is the
    only handler that raises it, and it lowers it again on every path. *)
Theorem X3_loading_flag_off (w : W) (evs : list Event) :
  isLoading (refs (exec (run evs) (boot w))) = false.
Proof.
  assert (Hrun : ∀ s, isLoading (refs s) = false →
                      isLoading (refs (exec (run evs) s)) = false).
  { induction evs as [|ev evs IH]; intros s Hs; [done|].
    rewrite run_cons. by apply IH, dispatch_isLoading. }
  by apply Hrun.
Qed.

Lemma dispatch_error_stays ev s :
  ev ≠ ev_mounted → error (refs s) ≠ "" → error (refs (exec (dispatch ev) s)) ≠ "".
Proof.
  intros Hev Hs. destruct ev; [done|..]; open_handler; by_answers; done.
Qed.

(** X12: an error, once recorded, stays on display through every later user
    action, successful ones included; only start-up clears it. *)
Theorem X12_error_stays_until_restart s (evs : list Event) :
  Forall (λ ev, ev ≠ ev_mounted) evs →
  error (refs s) ≠ "" →
  error (refs (exec (run evs) s)) ≠ "".
Proof.
  intros Hevs. revert s. induction Hevs as [|ev evs Hev _ IH]; intros s Hs; [done|].
  rewrite run_cons. by apply IH, dispatch_error_stays.
Qed.

Lemma dispatch_log_grows ev s :
  logMessages (refs s) `prefix_of` logMessages (refs (exec (dispatch ev) s)).
Proof.
  destruct ev; open_handler; by_answers; repeat apply prefix_app_r; done.
Qed.

(** X13: the log only grows: whatever the user does and the host answers,
    the messages logged so far stay, in order, at the front of the log. *)
Theorem X13_log_append_only s (evs : list Event) :
  logMessages (refs s) `prefix_of` logMessages (refs (exec (run evs) s)).
Proof.
  revert s. induction evs as [|ev evs IH]; intros s; [done|].
  rewrite run_cons. etrans; [apply dispatch_log_grows|apply IH].
Qed.

Lemma dispatch_tags_ok ev s :
  tags_ok (tags_of s) → tags_ok (tags_of (exec (dispatch ev) s)).
Proof.
  intros Hok. destruct (dispatch_tags ev s) as [->|[->|[[tag ->]|[tag ->]]]].
  - done.
  - split; [apply NoDup_nil_2|apply not_elem_of_nil].
  - by apply addTag_list_ok.
  - by apply removeTag_list_ok.
Qed.

Lemma dispatch_sendable ev s :
  tags_ok (tags_of s) →
  Forall sendable (invoked s) →
  Forall sendable (invoked (exec (dispatch ev) s)).
Proof.
  intros Htags Hs.
  destruct ev;
    try (open_handler; by_answers;
         repeat (apply Forall_app; split); try done;
         by apply Forall_singleton).
  (* the add form *)
  change (exec (dispatch ev_submit) s) with (exec addPassword s).
  destruct (required_filled (newPassword (refs s))) eqn:Hreq.
  - destruct (addPassword_dispatches s Hreq) as (rest & -> & Hrest).
    apply Forall_app. split; [done|]. apply Forall_cons. split; [by split|].
    destruct Hrest as [->| ->]; [done|by apply Forall_singleton].
  - by destruct (addPassword_refuses s Hreq) as (-> & _).
Qed.

(** X14: every [add_password] call the component makes, along any sequence
    of user actions, carries a request with title, username, password and key
    filled and with a tag list free of duplicates and empty tags. *)
Theorem X14_add_password_requests_sendable (w : W) (evs : list Event) :
  Forall sendable (invoked (exec (run evs) (boot w))).
Proof.
  assert (Hrun : ∀ s, tags_ok (tags_of s) → Forall sendable (invoked s) →
                      Forall sendable (invoked (exec (run evs) s))).
  { induction evs as [|ev evs IH]; intros s Ht Hs; [done|].
    rewrite run_cons. apply IH; [by apply dispatch_tags_ok|by apply dispatch_sendable]. }
  apply Hrun; [|done]. split; [apply NoDup_nil_2|apply not_elem_of_nil].
Qed.

Lemma dispatch_literal_arguments ev s :
  Forall literal_arguments (invoked s) →
  Forall literal_arguments (invoked (exec (dispatch ev) s)).
Proof.
  intros Hs. destruct ev; open_handler; by_answers;
    repeat (apply Forall_app; split); try done; by apply Forall_singleton.
Qed.

(** X15: along any sequence of user actions every
    [get_all_passwords_from_storage] call asks for the [local] storage target,
    and every [decrypt_password] call has [your-key], the literal the view
    button passes, as its [user_password]. *)
Theorem X15_literal_arguments (w : W) (evs : list Event) :
  Forall literal_arguments (invoked (exec (run evs) (boot w))).
Proof.
  assert (Hrun : ∀ s, Forall literal_arguments (invoked s) →
                      Forall literal_arguments (invoked (exec (run evs) s))).
  { induction evs as [|ev evs IH]; intros s Hs; [done|].
    rewrite run_cons. by apply IH, dispatch_literal_arguments. }
  by apply Hrun.
Qed.

(** X16: typing in the search bar or the forms, editing tags and opening or
    closing dialogs never reaches the host and never changes the displayed
    list or the error. *)
Theorem X16_local_events_stay_local s (ev : Event) :
  local_event ev = true →
  invoked (exec (dispatch ev) s) = invoked s
  ∧ world (exec (dispatch ev) s) = world s
  ∧ passwords (refs (exec (dispatch ev) s)) = passwords (refs s)
  ∧ error (refs (exec (dispatch ev) s)) = error (refs s).
Proof.
  intros Hev. destruct ev; try discriminate Hev; open_handler; simpl; done.
Qed.

(** *** Tags *)

Lemma indexOf_snoc ts tag :
  tag ∉ ts → Js.indexOf (ts ++ [tag]) tag = Some (length ts).
Proof.
  induction ts as [|y ts IH]; intros Hn; simpl.
  - by rewrite String.eqb_refl.
  - apply not_elem_of_cons in Hn as [Hne Hn].
    destruct (String.eqb_spec y tag); [congruence|]. by rewrite IH.
Qed.

(** X17: removing a tag right after adding it gives back the tag list as it
    was, provided the tag was not there before. *)
Theorem X17_removeTag_undoes_addTag s tag :
  tag ∉ tags_of s →
  tags_of (exec (removeTag tag) (exec (addTag tag) s)) = tags_of s.
Proof.
  intros Hn.
  change (removeTag_list tag (addTag_list tag (tags_of s)) = tags_of s).
  rewrite addTag_list_spec. case_decide as Hd.
  - unfold removeTag_list. rewrite indexOf_snoc by done.
    rewrite (splice1_middle (tags_of s) [] tag). apply app_nil_r.
  - by apply removeTag_list_absent.
Qed.

End FrontEndMore.

(** *** The scaffold component *)

(** X18: [greet] of [App.vue] has no [try]: when [greet] rejects, it stops
    there, with [fetch_data] never invoked and nothing changed; when [greet]
    resolves, the greeting is stored and [fetch_data] is invoked, its result
    replacing [data] only when it resolves. *)
Theorem X18_greet_stops_at_first_rejection
    {W : Type} {host : Backend W} (s : Sys W App.Refs) :
  let s' := exec App.greet s in
  let call := greet (App.name (refs s)) in
  (∀ e w', respond call (world s) = (inl e, w') →
     invoked s' = invoked s ++ [call] ∧ refs s' = refs s)
  ∧ (∀ msg w1, respond call (world s) = (inr msg, w1) →
       invoked s' = invoked s ++ [call; fetch_data]
       ∧ App.greetMsg (refs s') = msg
       ∧ App.data (refs s')
           = match fst (respond fetch_data w1) with
             | inr d => d
             | inl _ => App.data (refs s)
             end).
Proof.
  unfold exec, App.greet, bind, get, invoke, modify, ret. simpl.
  destruct (respond (greet (App.name (refs s))) (world s)) as [[e|msg] w1]; simpl.
  - split; [|by intros ? ? [=]]. by intros ? ? _.
  - split; [by intros ? ? [=]|]. intros ? ? [= <- <-].
    destruct (respond fetch_data w1) as [[e|d] w2]; simpl;
      by rewrite <- app_assoc.
Qed.

(** *** The properties above, at the two sample hosts *)

(** X1 at a host that is down. *)
Lemma X1_initializeApp_rejected_witness :
  invoked (exec (initializeApp (host := Hosts.offline)) (boot tt))
    = [initialize_manager].
Proof.
  refine (proj1 (X1_initializeApp_rejected (host := Hosts.offline) (boot tt)
                   (Js.ThrownString "offline") tt _)).
  reflexivity.
Defined.

(** X2 at the in-memory host with one stored password. *)
Lemma X2_initializeApp_resolved_witness :
  invoked (exec (initializeApp (host := Hosts.memory)) (boot [Hosts.stored "Bank"]))
    = [initialize_manager; get_all_passwords_from_storage "local"].
Proof.
  refine (proj1 (X2_initializeApp_resolved (host := Hosts.memory)
                   (boot [Hosts.stored "Bank"]) tt [Hosts.stored "Bank"] _)).
  reflexivity.
Defined.

(** X5 at the in-memory host, viewing the one displayed password. *)
Lemma X5_decryptPasswordFunc_found_witness :
  let s := mkSys (set_passwords [Hosts.stored "Bank"] initialRefs)
             [Hosts.stored "Bank"] [] [] in
  showDecryptDialog
    (refs (exec (decryptPasswordFunc (host := Hosts.memory) "id-Bank" "your-key") s))
  = true.
Proof.
  intros s.
  refine (proj1 (proj2 (proj2
    (X5_decryptPasswordFunc_found (host := Hosts.memory) s "id-Bank" "your-key"
       (Hosts.stored "Bank") "secret" [Hosts.stored "Bank"] _ _)))).
  - reflexivity.
  - reflexivity.
Defined.

(** X6 with one password on display and another id asked for. *)
Lemma X6_decryptPasswordFunc_unknown_id_witness :
  let s := mkSys (set_passwords [Hosts.stored "Bank"] initialRefs)
             [Hosts.stored "Bank"] [] [] in
  exec (decryptPasswordFunc (host := Hosts.memory) "id-Mail" "your-key") s = s.
Proof.
  intros s.
  apply (X6_decryptPasswordFunc_unknown_id (host := Hosts.memory) s "id-Mail" "your-key").
  simpl. intros Hin. apply list_elem_of_singleton in Hin. discriminate Hin.
Defined.

(** X7 at a host that is down, with the dialog closed. *)
Lemma X7_decryptPasswordFunc_rejected_witness :
  let s := mkSys (set_passwords [Hosts.stored "Bank"] initialRefs) tt [] [] in
  showDecryptDialog
    (refs (exec (decryptPasswordFunc (host := Hosts.offline) "id-Bank" "your-key") s))
  = false.
Proof.
  intros s.
  refine (proj1 (proj2
    (X7_decryptPasswordFunc_rejected (host := Hosts.offline) s "id-Bank" "your-key"
       (Hosts.stored "Bank") (Js.ThrownString "offline") tt _ _))).
  - reflexivity.
  - reflexivity.
Defined.

(** X9 at a host that is down, with the form filled. *)
Lemma X9_addPassword_rejected_keeps_form_witness :
  let s := mkSys (set_showAddForm true (set_newPassword filled_form initialRefs))
             tt [] [] in
  newPassword (refs (exec (addPassword (host := Hosts.offline)) s)) = filled_form.
Proof.
  intros s.
  refine (proj1 (proj2
    (X9_addPassword_rejected_keeps_form (host := Hosts.offline) s
       (Js.ThrownString "offline") tt _ _))).
  - reflexivity.
  - reflexivity.
Defined.

(** X10 at the in-memory host, with the form filled. *)
Lemma X10_addPassword_resolved_resets_and_reloads_witness :
  let s := mkSys (set_showAddForm true (set_newPassword filled_form initialRefs))
             [] [] [] in
  newPassword (refs (exec (addPassword (host := Hosts.memory)) s)) = emptyRequest.
Proof.
  intros s.
  refine (proj1 (proj2
    (X10_addPassword_resolved_resets_and_reloads (host := Hosts.memory) s tt
       [Hosts.stored "Bank"] _ _))).
  - reflexivity.
  - reflexivity.
Defined.

(** X11 at a host that is down, with one password on display. *)
Lemma X11_handleSearch_rejected_keeps_list_witness :
  let s := mkSys (set_passwords [Hosts.stored "Bank"] initialRefs) tt [] [] in
  passwords (refs (exec (handleSearch (host := Hosts.offline) "mail") s))
  = [Hosts.stored "Bank"].
Proof.
  intros s.
  refine (proj1
    (X11_handleSearch_rejected_keeps_list (host := Hosts.offline) s "mail"
       (Js.ThrownString "offline") tt _ _)).
  - vm_compute. discriminate.
  - reflexivity.
Defined.

(** X12 at the in-memory host: an old error survives a successful add. *)
Lemma X12_error_stays_until_restart_witness :
  let s := mkSys (set_error "加载密码失败: offline"
                    (set_newPassword filled_form initialRefs)) [] [] [] in
  error (refs (exec (run (host := Hosts.memory) [ev_submit; ev_search_enter]) s))
  ≠ "".
Proof.
  intros s.
  apply (X12_error_stays_until_restart (host := Hosts.memory) s
           [ev_submit; ev_search_enter]).
  - repeat constructor; discriminate.
  - simpl. discriminate.
Defined.

(** X16 for a tag typed into a fresh form. *)
Lemma X16_local_events_stay_local_witness :
  invoked (exec (dispatch (host := Hosts.offline) (ev_tag_enter "money")) (boot tt))
  = [].
Proof.
  refine (proj1 (X16_local_events_stay_local (host := Hosts.offline) (boot tt)
                   (ev_tag_enter "money") _)).
  reflexivity.
Defined.

(** X17 for a new tag next to an existing one. *)
Lemma X17_removeTag_undoes_addTag_witness :
  let s := mkSys (set_newPassword filled_form initialRefs) tt [] [] in
  tags_of (exec (removeTag (W := unit) "bank") (exec (addTag (W := unit) "bank") s))
  = ["money"].
Proof.
  intros s.
  apply (X17_removeTag_undoes_addTag (W := unit) s "bank").
  simpl. intros Hin. apply list_elem_of_singleton in Hin. discriminate Hin.
Defined.

(** *** Where the displayed list comes from *)

Ltac by_answers_eqn :=
  repeat (simpl;
    match goal with
    | |- context [respond ?c ?w] => destruct (respond c w) as [[?|?] ?] eqn:?
    | |- context [if ?b then _ else _] => destruct b
    | |- context [match find ?f ?l with _ => _ end] => destruct (find f l)
    end); simpl.

Lemma dispatch_from_host {W : Type} {host : Backend W} (ev : Event) (s : Sys W Refs) :
  from_host (passwords (refs s)) →
  from_host (passwords (refs (exec (dispatch ev) s))).
Proof.
  intros Hs. destruct ev; open_handler; by_answers_eqn; try done;
    try (by left);
    try (right; left; by do 3 eexists);
    try (right; right; by do 4 eexists).
Qed.

(** X19: the component never makes up or edits entries: along any sequence
    of user actions the list on display is empty, or the password list of a
    resolved local load, or the matches of a resolved search. *)
Theorem X19_displayed_list_from_host
    {W : Type} {host : Backend W} (w : W) (evs : list Event) :
  from_host (passwords (refs (exec (run evs) (boot w)))).
Proof.
  assert (Hrun : ∀ s : Sys W Refs, from_host (passwords (refs s)) →
                      from_host (passwords (refs (exec (run evs) s)))).
  { induction evs as [|ev evs IH]; intros s Hs; [done|].
    rewrite run_cons. by apply IH, dispatch_from_host. }
  apply Hrun. by left.
Qed.
